(** * ascii-art-generator: the image-to-text conversion core

    A shallow embedding of [src/lib/ascii-converter.ts] and
    [src/lib/dithering.ts], and the properties of the specification that
    are stated about them.

    Conventions of the embedding.
    - A JavaScript number is a binary64 value, held in [JS.num] as the
      rational it denotes, or one of [+Infinity], [-Infinity], [NaN].
      Every [+], [-], [*], [/] and [Math.sqrt] returns the exact result
      rounded to the nearest binary64 value, halves to the even mantissa
      ([JS.round64]); a decimal literal is the binary64 value nearest to
      it.  Zero carries no sign: no zero divisor of the source is negative.
      The section on conformance replays the arithmetic on the primitive
      binary64 numbers of Rocq.
    - [Math.pow(x, 2)] is taken as the rounded product [x * x].
    - An integer of the source (a loop counter, a length, a byte) is below
      [2^53] and is held exactly.
    - A [Uint8ClampedArray] is a [list Z]; a store converts with
      [JS.toUint8Clamp], a store outside the array is dropped, a load
      outside it is [undefined].
    - A JavaScript string is the list of its UTF-16 code units.
    - A [for] loop over [0 .. n-1] is a left fold over [seq 0 n].
    - An exception is the [Throw] outcome of [result]. *)

From Stdlib Require Import ZArith QArith Qabs Qround Qminmax Qpower Lqa String Ascii List Lia Bool.
From Stdlib Require Import Floats.
From stdpp Require Import base list.

Open Scope Z_scope.

(* ------------------------------------------------------------------ *)
(** ** JavaScript numbers *)

Module JS.

Inductive num : Type :=
| Fin (q : Q)
| PInf
| NInf
| NaN.

Definition ofZ (z : Z) : num := Fin (inject_Z z).
Definition ofnat (n : nat) : num := ofZ (Z.of_nat n).

Definition Qltb (a b : Q) : bool := negb (Qle_bool b a).

(** Rounding to the nearest integer, halves to the even one. *)
Definition roundHalfEven (q : Q) : Z :=
  let f := Qfloor q in
  match Qcompare (q - inject_Z f) (1 # 2) with
  | Lt => f
  | Gt => f + 1
  | Eq => if Z.even f then f else f + 1
  end.

(** The binary exponent of a rational that is not zero: the [e] with
    [2^e <= |q| < 2^(e+1)]. *)
Definition ilog2 (q : Q) : Z :=
  let e0 := Z.log2 (Z.abs (Qnum q)) - Z.log2 (Zpos (Qden q)) in
  if Qle_bool (2 ^ e0)%Q (Qabs q) then e0 else e0 - 1.

(** The exponent of the last place of the binary64 values around [q]:
    53 significant bits, and [2^-1074] for the subnormal ones. *)
Definition ulpExp (q : Q) : Z := Z.max (ilog2 q - 52) (-1074).

(** The multiple of [2^ulpExp] nearest to [q], halves to the even one. *)
Definition rnd (q : Q) : Q :=
  let q := Qred q in
  if Qeq_bool q 0 then 0%Q
  else
    let e := ulpExp q in
    Qred (inject_Z (roundHalfEven (q / 2 ^ e)%Q) * 2 ^ e)%Q.

(** The binary64 value of an exact result: what rounds to [2^1024] or
    beyond is an infinity. *)
Definition round64 (q : Q) : num :=
  let r := rnd q in
  if Qle_bool (2 ^ 1024)%Q r then PInf
  else if Qle_bool r (- 2 ^ 1024)%Q then NInf
  else Fin r.

Definition sgn (a : num) : Z :=
  match a with
  | Fin q => Z.sgn (Qnum q)
  | PInf => 1
  | NInf => -1
  | NaN => 0
  end.

(** The infinity of a given sign; a zero sign is the indeterminate form. *)
Definition signed_inf (s : Z) : num :=
  match s with
  | Zpos _ => PInf
  | Zneg _ => NInf
  | Z0 => NaN
  end.

Definition add (a b : num) : num :=
  match a, b with
  | NaN, _ | _, NaN => NaN
  | Fin x, Fin y => round64 (x + y)
  | PInf, NInf | NInf, PInf => NaN
  | PInf, _ | _, PInf => PInf
  | NInf, _ | _, NInf => NInf
  end.

Definition neg (a : num) : num :=
  match a with
  | Fin x => Fin (- x)
  | PInf => NInf
  | NInf => PInf
  | NaN => NaN
  end.

Definition sub (a b : num) : num := add a (neg b).

Definition mul (a b : num) : num :=
  match a, b with
  | NaN, _ | _, NaN => NaN
  | Fin x, Fin y => round64 (x * y)
  | _, _ => signed_inf (sgn a * sgn b)
  end.

(** [x / 0] is an infinity of the sign of [x], and [0 / 0] is [NaN]. *)
Definition div (a b : num) : num :=
  match a, b with
  | NaN, _ | _, NaN => NaN
  | Fin x, Fin y => if Qeq_bool y 0 then signed_inf (sgn a) else round64 (x / y)
  | Fin _, _ => Fin 0
  | _, Fin y => signed_inf (sgn a * (if Qeq_bool y 0 then 1 else sgn b))
  | _, _ => NaN
  end.

(** A rational within half a unit of the square root of [q > 0] scaled to
    more than 64 bits, on the same side of every rounding boundary: the
    integer square root, and half a unit more when the root is not exact. *)
Definition sqrtApprox (q : Q) : Q :=
  let s := 64 - ilog2 q / 2 in
  let t := (q * 2 ^ (2 * s))%Q in
  let r := Z.sqrt (Qfloor t) in
  let sticky := if Qeq_bool (inject_Z (r * r)) t then 0 else 1 in
  (inject_Z (2 * r + sticky) / 2 ^ (s + 1))%Q.

(** [Math.sqrt] *)
Definition sqrt (a : num) : num :=
  match a with
  | Fin q =>
      if Qeq_bool q 0 then Fin 0
      else if Qle_bool 0 q then round64 (sqrtApprox (Qred q))
      else NaN
  | PInf => PInf
  | _ => NaN
  end.

(** [a < b]; every comparison with [NaN] is false. *)
Definition ltb (a b : num) : bool :=
  match a, b with
  | NaN, _ | _, NaN => false
  | Fin x, Fin y => Qltb x y
  | PInf, _ => false
  | _, PInf => true
  | NInf, NInf => false
  | NInf, _ => true
  | Fin _, NInf => false
  end.

Definition gtb (a b : num) : bool := ltb b a.

(** [a === b] on numbers *)
Definition eqb (a b : num) : bool :=
  match a, b with
  | Fin x, Fin y => Qeq_bool x y
  | PInf, PInf | NInf, NInf => true
  | _, _ => false
  end.

(** [Math.min(a, b)] and [Math.max(a, b)] *)
Definition min (a b : num) : num :=
  match a, b with
  | NaN, _ | _, NaN => NaN
  | _, _ => if ltb b a then b else a
  end.

Definition max (a b : num) : num :=
  match a, b with
  | NaN, _ | _, NaN => NaN
  | _, _ => if ltb a b then b else a
  end.

(** [Math.abs], [Math.floor] and [Math.round] (the nearest integer, halves
    go up); their results are exact. *)
Definition abs (a : num) : num :=
  match a with
  | Fin q => Fin (Qabs q)
  | PInf | NInf => PInf
  | NaN => NaN
  end.

Definition floor (a : num) : num :=
  match a with
  | Fin q => ofZ (Qfloor q)
  | _ => a
  end.

Definition round (a : num) : num :=
  match a with
  | Fin q => ofZ (Qfloor (q + (1 # 2)))
  | _ => a
  end.

(** Truthiness of a number, and [a || b]. *)
Definition truthy (a : num) : bool :=
  match a with
  | Fin q => negb (Qeq_bool q 0)
  | PInf | NInf => true
  | NaN => false
  end.

Definition or (a b : num) : num := if truthy a then a else b.

(** The conversion of a store into a [Uint8ClampedArray]. *)
Definition toUint8Clamp (a : num) : Z :=
  match a with
  | NaN | NInf => 0
  | PInf => 255
  | Fin q =>
      if Qle_bool q 0 then 0
      else if Qle_bool 255 q then 255
      else roundHalfEven q
  end.

(** A number used as an array index: an element is reached only through
    a non-negative integer. *)
Definition toIndex (a : num) : option nat :=
  match a with
  | Fin q =>
      if Qle_bool 0 q && Qeq_bool q (inject_Z (Qfloor q))
      then Some (Z.to_nat (Qfloor q))
      else None
  | _ => None
  end.

(** The value of a primitive binary64 number of Rocq. *)
Definition ofFloat (f : float) : num :=
  match Prim2SF f with
  | S754_zero _ => Fin 0
  | S754_infinity false => PInf
  | S754_infinity true => NInf
  | S754_nan => NaN
  | S754_finite s m e =>
      Fin (Qred (inject_Z (if s then Zneg m else Zpos m) * 2 ^ e)%Q)
  end.

End JS.

Abbreviation num := JS.num.
Abbreviation Fin := JS.Fin.
Abbreviation PInf := JS.PInf.
Abbreviation NInf := JS.NInf.
Abbreviation NaN := JS.NaN.

(** Decimal literals of the source: [n/d] rounded to binary64. *)
Definition lit (n : Z) (d : positive) : num := JS.round64 (n # d).

(* ------------------------------------------------------------------ *)
(** ** Typed arrays, strings, outcomes *)

Abbreviation Uint8ClampedArray := (list Z).

(** [a[i]] as a number: [undefined] coerces to [NaN]. *)
Definition load (a : list Z) (i : nat) : num :=
  match a !! i with
  | Some v => JS.ofZ v
  | None => NaN
  end.

(** [a[i] = v] *)
Definition store (a : list Z) (i : nat) (v : num) : list Z :=
  <[ i := JS.toUint8Clamp v ]> a.

(** [a[i] += v] *)
Definition storeAdd (a : list Z) (i : nat) (v : num) : list Z :=
  store a i (JS.add (load a i) v).

(** [new Uint8ClampedArray(n)] *)
Definition zeros (n : nat) : list Z := replicate n 0.

Record ImageData : Type := mkImageData {
  data : Uint8ClampedArray;
  width : nat;
  height : nat
}.

Definition byte (v : Z) : Prop := 0 <= v <= 255.

(** The guarantee of the image source: four bytes per pixel. *)
Definition wellFormed (img : ImageData) : Prop :=
  length (data img) = (width img * height img * 4)%nat /\ Forall byte (data img).

Definition char := N.
Definition jsstring := list char.

Definition codeOf (c : ascii) : char := N_of_ascii c.

Fixpoint str (s : string) : jsstring :=
  match s with
  | EmptyString => []
  | String c s' => codeOf c :: str s'
  end.

Definition SPACE : char := 32%N.
Definition NEWLINE : char := 10%N.
Definition LIGHT_SHADE : char := 9617%N.   (* U+2591 *)
Definition MEDIUM_SHADE : char := 9618%N.  (* U+2592 *)
Definition DARK_SHADE : char := 9619%N.    (* U+2593 *)
Definition FULL_BLOCK : char := 9608%N.    (* U+2588 *)
Definition LOWER_HALF : char := 9604%N.    (* U+2584 *)
Definition DQUOTE : char := 34%N.

Inductive error : Type := TypeError | RangeError.

Inductive result (A : Type) : Type :=
| Ok (a : A)
| Throw (e : error)
| Diverge.
Arguments Ok {A} a.
Arguments Throw {A} e.
Arguments Diverge {A}.

Definition bind {A B} (m : result A) (k : A -> result B) : result B :=
  match m with
  | Ok a => k a
  | Throw e => Throw e
  | Diverge => Diverge
  end.

#[global] Instance result_bind : MBind result :=
  fun A B k m => bind m k.
#[global] Instance result_ret : MRet result := @Ok.

(** A loop whose body may throw: the first exception ends it. *)
Fixpoint foldM {A B} (f : A -> B -> result A) (l : list B) (a : A) : result A :=
  match l with
  | [] => Ok a
  | b :: l' => a' ← f a b; foldM f l' a'
  end.

(* ------------------------------------------------------------------ *)
(** ** ascii-converter.ts *)

Definition smooth_ramp : jsstring :=
  str " .'`^" ++ [DQUOTE] ++
  str ",:;Il!i~+_-?][}{1)(|\/tfjrxnuvczXYUJCLQ0OZmwqpdbkhao*#MW&8%B@$".

Definition dense_ramp : jsstring :=
  str " `.-':_,^=;><+!rc*/z?sLTv)J7(|Fi{}C3tlf1unxzjY5V2wqkoahd0ep9gy6Pb4km8RDZXUBO#MW&8%B@$".

(** [ASCII_SETS], as the list of its own entries. *)
Definition ASCII_SETS : list (string * jsstring) :=
  [ ("minimal"%string, str " .:-=+*#%@");
    ("smooth"%string, smooth_ramp);
    ("classic"%string, str " .,:;ox%#@");
    ("dense"%string, dense_ramp);
    ("blocks"%string, [SPACE; LIGHT_SHADE; MEDIUM_SHADE; DARK_SHADE; FULL_BLOCK]);
    ("ansi-safe"%string, str " .:-=#@");
    ("ansi-half"%string, [SPACE; LOWER_HALF; FULL_BLOCK]);
    ("ansi-simple"%string, [SPACE; MEDIUM_SHADE; FULL_BLOCK]);
    ("ansi-classic"%string, [SPACE; codeOf "."; MEDIUM_SHADE; DARK_SHADE; FULL_BLOCK]);
    ("ansi-minimal"%string, [SPACE; FULL_BLOCK]) ].

(** The property names that an object literal inherits from
    [Object.prototype]: eleven functions, and the accessor [__proto__],
    which yields [Object.prototype] itself. *)
Definition OBJECT_PROTOTYPE_KEYS : list string :=
  [ "constructor"; "hasOwnProperty"; "isPrototypeOf"; "propertyIsEnumerable";
    "toLocaleString"; "toString"; "valueOf"; "__proto__";
    "__defineGetter__"; "__defineSetter__"; "__lookupGetter__";
    "__lookupSetter__" ]%string.

(** What [ASCII_SETS[key]] evaluates to: the ramp of an own entry, a member
    inherited from [Object.prototype], or [undefined]. *)
Inductive RampLookup : Type :=
| OwnRamp (ramp : jsstring)
| Inherited
| Undefined.

Fixpoint ownEntry (sets : list (string * jsstring)) (key : string)
  : option jsstring :=
  match sets with
  | [] => None
  | (k, v) :: rest => if String.eqb k key then Some v else ownEntry rest key
  end.

Definition lookupSet (sets : list (string * jsstring)) (key : string) : RampLookup :=
  match ownEntry sets key with
  | Some ramp => OwnRamp ramp
  | None =>
      if existsb (String.eqb key) OBJECT_PROTOTYPE_KEYS then Inherited else Undefined
  end.

Inductive ArtStyle : Type := ascii_style | ansi_style.
Inductive ColorScheme : Type := white_on_black | black_on_white.
Inductive ColorPalette : Type := ansi_16 | ansi_256.

Record ConversionOptions : Type := mkOptions {
  opt_width : nat;
  opt_height : option num;
  opt_asciiSet : string;
  opt_artStyle : ArtStyle;
  opt_maintainAspectRatio : bool;
  opt_fontSize : num;
  opt_contrast : num;
  opt_brightness : num;
  opt_charAspectRatio : num;
  opt_colorScheme : option ColorScheme;
  opt_useColors : option bool;
  opt_colorPalette : option ColorPalette
}.

Definition ANSI_16_COLORS : list (Z * Z * Z) :=
  [ (0, 0, 0); (128, 0, 0); (0, 128, 0); (128, 128, 0);
    (0, 0, 128); (128, 0, 128); (0, 128, 128); (192, 192, 192);
    (128, 128, 128); (255, 0, 0); (0, 255, 0); (255, 255, 0);
    (0, 0, 255); (255, 0, 255); (0, 255, 255); (255, 255, 255) ].

Record AnsiPixel : Type := mkAnsiPixel {
  px_char : option char;
  fgColor : option nat;
  bgColor : option nat;
  rgb : option (num * num * num)
}.

(** [s[i]] for a number [i]. *)
Definition charAt (s : jsstring) (i : num) : option char :=
  match JS.toIndex i with
  | Some n => s !! n
  | None => None
  end.

Definition normalizeBrightness (brightness : num) (invertBrightness : bool) : num :=
  let normalizedBrightness := JS.max (JS.ofZ 0) (JS.min (JS.ofZ 255) brightness) in
  if invertBrightness then JS.sub (JS.ofZ 255) normalizedBrightness
  else normalizedBrightness.

Definition rampIndex (brightness : num) (len : nat) (invertBrightness : bool) : num :=
  JS.floor (JS.mul (JS.div (normalizeBrightness brightness invertBrightness) (JS.ofZ 255))
                   (JS.sub (JS.ofnat len) (JS.ofZ 1))).

Definition brightnessToAscii (brightness : num) (asciiSet : jsstring)
    (invertBrightness : bool) : option char :=
  charAt asciiSet (rampIndex brightness (length asciiSet) invertBrightness).

(** The same call with the value the table lookup gave.  Reading [.length]
    of [undefined] throws.  An inherited member is a function, whose
    [length] is a number, or [Object.prototype], whose [length] is
    [undefined]; it has no property named by a number or by ["NaN"], so the
    glyph read from it is [undefined]. *)
Definition brightnessToAscii_dyn (brightness : num) (asciiSet : RampLookup)
    (invertBrightness : bool) : result (option char) :=
  match asciiSet with
  | OwnRamp s => Ok (brightnessToAscii brightness s invertBrightness)
  | Inherited => Ok None
  | Undefined => Throw TypeError
  end.

Definition getPixelBrightness (r g b : num) : num :=
  JS.round (JS.add (JS.add (JS.mul (lit 299 1000) r) (JS.mul (lit 587 1000) g))
                   (JS.mul (lit 114 1000) b)).

(** [Math.pow(x, 2)] *)
Definition pow2 (x : num) : num := JS.mul x x.

(** The distance of a colour to a palette entry, as the loop computes it. *)
Definition colorDistance (r g b : num) (p : Z * Z * Z) : num :=
  let '(pr, pg, pb) := p in
  JS.sqrt
    (JS.add (JS.add (pow2 (JS.sub r (JS.ofZ pr))) (pow2 (JS.sub g (JS.ofZ pg))))
            (pow2 (JS.sub b (JS.ofZ pb)))).

(** One turn of the search loop on the state [(minDistance, closestIndex)]. *)
Definition closestStep (r g b : num) (palette : list (Z * Z * Z))
    (st : num * nat) (i : nat) : num * nat :=
  match palette !! i with
  | Some p =>
      let distance := colorDistance r g b p in
      if JS.ltb distance (fst st) then (distance, i) else st
  | None => st
  end.

Definition findClosestAnsiColor (r g b : num) (palette : list (Z * Z * Z)) : nat :=
  snd (foldl (closestStep r g b palette) (PInf, 0%nat) (seq 0 (length palette))).

Definition cubeLevel (k : nat) : Z :=
  if (k =? 0)%nat then 0 else 55 + Z.of_nat k * 40.

Definition generateAnsi256Palette : list (Z * Z * Z) :=
  ANSI_16_COLORS
  ++ flat_map (fun r => flat_map (fun g => map (fun b =>
         (cubeLevel r, cubeLevel g, cubeLevel b)) (seq 0 6)) (seq 0 6)) (seq 0 6)
  ++ map (fun i => let gray := 8 + Z.of_nat i * 10 in (gray, gray, gray)) (seq 0 24).

(** The palette a call uses; a missing argument is ['ansi-16']. *)
Definition paletteOf (colorPalette : option ColorPalette) : list (Z * Z * Z) :=
  match colorPalette with
  | Some ansi_256 => generateAnsi256Palette
  | _ => ANSI_16_COLORS
  end.

(** The cell of [rgbToAnsiPixel] once the glyph is known. *)
Definition ansiPixelOf (char : option char) (r g b : num) (useColors : bool)
    (colorPalette : option ColorPalette) : AnsiPixel :=
  if negb useColors then mkAnsiPixel char None None None
  else
    let palette := paletteOf colorPalette in
    let colorIndex := findClosestAnsiColor r g b palette in
    let avgColor := JS.div (JS.add (JS.add r g) b) (JS.ofZ 3) in
    if JS.ltb avgColor (JS.ofZ 128) then
      mkAnsiPixel
        (Some (if decide (char = Some SPACE) then SPACE else DARK_SHADE))
        (Some 0%nat) (Some colorIndex) (Some (r, g, b))
    else
      mkAnsiPixel char (Some colorIndex) None (Some (r, g, b)).

Definition rgbToAnsiPixel (r g b : num) (asciiChars : jsstring) (useColors : bool)
    (colorPalette : option ColorPalette) (invertBrightness : bool) : AnsiPixel :=
  let brightness := getPixelBrightness r g b in
  let char := brightnessToAscii brightness asciiChars invertBrightness in
  ansiPixelOf char r g b useColors colorPalette.

(** The same call with the value the table lookup gave: the glyph is
    computed first, and only that step depends on the ramp. *)
Definition rgbToAnsiPixel_dyn (r g b : num) (asciiChars : RampLookup)
    (useColors : bool) (colorPalette : option ColorPalette)
    (invertBrightness : bool) : result AnsiPixel :=
  let brightness := getPixelBrightness r g b in
  char ← brightnessToAscii_dyn brightness asciiChars invertBrightness;
  Ok (ansiPixelOf char r g b useColors colorPalette).

Definition clamp255 (v : num) : num :=
  JS.max (JS.ofZ 0) (JS.min (JS.ofZ 255) v).

Definition adjustBrightness (value contrast brightness : num) : num :=
  let adjusted := JS.add (JS.mul (JS.sub value (JS.ofZ 128)) contrast) (JS.ofZ 128) in
  let adjusted := JS.add adjusted brightness in
  clamp255 adjusted.

(** [a[i]] for a number [i]. *)
Definition loadAt (a : list Z) (i : num) : num :=
  match JS.toIndex i with
  | Some n => load a n
  | None => NaN
  end.

(** The body of the two loops of [resizeImageData] at [(x, y)]. *)
Definition resizePixel (imageData : ImageData) (targetWidth : nat)
    (scaleX scaleY : num) (newData : list Z) (y x : nat) : list Z :=
  let sourceX := JS.floor (JS.mul (JS.ofnat x) scaleX) in
  let sourceY := JS.floor (JS.mul (JS.ofnat y) scaleY) in
  let sourceIndex :=
    JS.mul (JS.add (JS.mul sourceY (JS.ofnat (width imageData))) sourceX) (JS.ofZ 4) in
  let targetIndex := ((y * targetWidth + x) * 4)%nat in
  let newData := store newData targetIndex (loadAt (data imageData) sourceIndex) in
  let newData := store newData (targetIndex + 1)
                   (loadAt (data imageData) (JS.add sourceIndex (JS.ofZ 1))) in
  let newData := store newData (targetIndex + 2)
                   (loadAt (data imageData) (JS.add sourceIndex (JS.ofZ 2))) in
  store newData (targetIndex + 3)
    (loadAt (data imageData) (JS.add sourceIndex (JS.ofZ 3))).

(** [resizeImageData] at target dimensions that are natural numbers. *)
Definition resizeImageData (imageData : ImageData) (targetWidth targetHeight : nat)
    : ImageData :=
  let newData := zeros (targetWidth * targetHeight * 4) in
  let scaleX := JS.div (JS.ofnat (width imageData)) (JS.ofnat targetWidth) in
  let scaleY := JS.div (JS.ofnat (height imageData)) (JS.ofnat targetHeight) in
  let newData :=
    foldl (fun nd y =>
             foldl (fun nd x => resizePixel imageData targetWidth scaleX scaleY nd y x)
                   nd (seq 0 targetWidth))
          newData (seq 0 targetHeight) in
  mkImageData newData targetWidth targetHeight.

Record Dimensions : Type := mkDimensions {
  dim_width : num;
  dim_height : num
}.

Definition calculateDimensions (originalWidth originalHeight targetWidth : num)
    (maintainAspectRatio : bool) (charAspectRatio : num) : Dimensions :=
  if negb maintainAspectRatio then
    mkDimensions targetWidth (JS.floor (JS.mul targetWidth (lit 5 10)))
  else
    let imageAspectRatio := JS.div originalWidth originalHeight in
    let targetHeight :=
      JS.floor (JS.mul (JS.div targetWidth imageAspectRatio) charAspectRatio) in
    mkDimensions targetWidth targetHeight.

(** What [convertToAscii] gets from a row count that [calculateDimensions]
    returned, for a natural column count: the allocation
    [new Uint8ClampedArray(w * h * 4)] throws on a negative or infinite
    length and takes [NaN] as [0]; the loops [y < h] then run [h] times,
    not at all when [h] is negative or [NaN], and for ever when it is
    [+Infinity].  A finite [h] is an integer, being a [Math.floor]. *)
Definition allocRows (targetWidth : nat) (targetHeight : num) : result nat :=
  match targetHeight with
  | Fin q =>
      if Qle_bool 0 q then Ok (Z.to_nat (Qfloor q))
      else if (targetWidth =? 0)%nat then Ok 0%nat else Throw RangeError
  | NaN => Ok 0%nat
  | NInf => if (targetWidth =? 0)%nat then Ok 0%nat else Throw RangeError
  | PInf => if (targetWidth =? 0)%nat then Diverge else Throw RangeError
  end.

(** [adjustedBrightness / avgBrightness || 1] *)
Definition brightnessFactor (adjustedBrightness avgBrightness : num) : num :=
  JS.or (JS.div adjustedBrightness avgBrightness) (JS.ofZ 1).

(** The colour of a cell of the coloured path: the pixel scaled by the
    brightness factor of its luminance. *)
Definition rescaleRGB (r g b contrast brightness : num) : num * num * num :=
  let avgBrightness := getPixelBrightness r g b in
  let adjustedBrightness := adjustBrightness avgBrightness contrast brightness in
  let factor := brightnessFactor adjustedBrightness avgBrightness in
  (clamp255 (JS.mul r factor), clamp255 (JS.mul g factor), clamp255 (JS.mul b factor)).

Inductive Output : Type :=
| Text (s : jsstring)
| Cells (rows : list (list AnsiPixel)).

(** [s += c] for a glyph that may be [undefined]. *)
Definition appendGlyph (s : jsstring) (c : option char) : jsstring :=
  match c with
  | Some c => s ++ [c]
  | None => s ++ str "undefined"
  end.

Definition ansiCell (d : list Z) (asciiChars : RampLookup)
    (contrast brightness : num) (colorPalette : option ColorPalette)
    (invertBrightness : bool) (index : nat) : result AnsiPixel :=
  let r := load d index in
  let g := load d (index + 1) in
  let b := load d (index + 2) in
  let '(r, g, b) := rescaleRGB r g b contrast brightness in
  rgbToAnsiPixel_dyn r g b asciiChars true colorPalette invertBrightness.

Definition asciiGlyph (d : list Z) (asciiChars : RampLookup)
    (contrast brightness : num) (invertBrightness : bool) (index : nat)
    : result (option char) :=
  let r := load d index in
  let g := load d (index + 1) in
  let b := load d (index + 2) in
  let pixelBrightness := getPixelBrightness r g b in
  let pixelBrightness := adjustBrightness pixelBrightness contrast brightness in
  brightnessToAscii_dyn pixelBrightness asciiChars invertBrightness.

Definition convertToAscii (imageData : ImageData) (options : ConversionOptions)
    : result Output :=
  let width_ := opt_width options in
  let contrast := opt_contrast options in
  let brightness := opt_brightness options in
  let asciiChars := lookupSet ASCII_SETS (opt_asciiSet options) in
  let invertBrightness :=
    match opt_colorScheme options with Some black_on_white => true | _ => false end in
  let dimensions :=
    calculateDimensions (JS.ofnat (width imageData)) (JS.ofnat (height imageData))
      (JS.ofnat width_) (opt_maintainAspectRatio options)
      (opt_charAspectRatio options) in
  rows ← allocRows width_ (dim_height dimensions);
  let resizedData := resizeImageData imageData width_ rows in
  let coloured :=
    match opt_artStyle options, opt_useColors options with
    | ansi_style, Some true => true
    | _, _ => false
    end in
  if coloured then
    ansiPixels ←
      foldM (fun ansiPixels y =>
               row ← foldM (fun row x =>
                              ansiPixel ← ansiCell (data resizedData) asciiChars contrast
                                            brightness (opt_colorPalette options)
                                            invertBrightness ((y * width_ + x) * 4);
                              Ok (row ++ [ansiPixel]))
                           (seq 0 width_) [];
               Ok (ansiPixels ++ [row]))
            (seq 0 rows) [];
    Ok (Cells ansiPixels)
  else
    ascii ←
      foldM (fun ascii y =>
               ascii ← foldM (fun ascii x =>
                                c ← asciiGlyph (data resizedData) asciiChars contrast
                                      brightness invertBrightness ((y * width_ + x) * 4);
                                Ok (appendGlyph ascii c))
                             (seq 0 width_) ascii;
               Ok (ascii ++ [NEWLINE]))
            (seq 0 rows) [];
    Ok (Text ascii).

(* ------------------------------------------------------------------ *)
(** ** dithering.ts *)

Record DitheringOptions : Type := mkDitheringOptions {
  algorithm : string;
  strength : num
}.


Definition ORDERED_2X2 : list (list Z) :=
  [ [0; 2];
    [3; 1] ].

Definition ORDERED_4X4 : list (list Z) :=
  [ [0; 8; 2; 10];
    [12; 4; 14; 6];
    [3; 11; 1; 9];
    [15; 7; 13; 5] ].

Definition ORDERED_8X8 : list (list Z) :=
  [ [0; 32; 8; 40; 2; 34; 10; 42];
    [48; 16; 56; 24; 50; 18; 58; 26];
    [12; 44; 4; 36; 14; 46; 6; 38];
    [60; 28; 52; 20; 62; 30; 54; 22];
    [3; 35; 11; 43; 1; 33; 9; 41];
    [51; 19; 59; 27; 49; 17; 57; 25];
    [15; 47; 7; 39; 13; 45; 5; 37];
    [63; 31; 55; 23; 61; 29; 53; 21] ].

(** The literal [a/b] of a kernel. *)
Definition frac (a b : Z) : num := JS.div (JS.ofZ a) (JS.ofZ b).

(** A kernel entry [[dx, dy, weight]]. *)
Definition Tap : Type := Z * Z * num.

Definition FLOYD_STEINBERG_KERNEL : list Tap :=
  [ (0, 0, frac 7 16);
    (-1, 1, frac 3 16);
    (0, 1, frac 5 16);
    (1, 1, frac 1 16) ].

Definition JARVIS_JUDICE_NINKE_KERNEL : list Tap :=
  [ (1, 0, frac 7 48); (2, 0, frac 5 48);
    (-2, 1, frac 3 48); (-1, 1, frac 5 48); (0, 1, frac 7 48);
    (1, 1, frac 5 48); (2, 1, frac 3 48);
    (-2, 2, frac 1 48); (-1, 2, frac 3 48); (0, 2, frac 5 48);
    (1, 2, frac 3 48); (2, 2, frac 1 48) ].

Definition STUCKI_KERNEL : list Tap :=
  [ (1, 0, frac 8 42); (2, 0, frac 4 42);
    (-2, 1, frac 2 42); (-1, 1, frac 4 42); (0, 1, frac 8 42);
    (1, 1, frac 4 42); (2, 1, frac 2 42);
    (-2, 2, frac 1 42); (-1, 2, frac 2 42); (0, 2, frac 4 42);
    (1, 2, frac 2 42); (2, 2, frac 1 42) ].

(** [oldPixel < 128 ? 0 : 255] *)
Definition quantize (oldPixel : num) : num :=
  if JS.ltb oldPixel (JS.ofZ 128) then JS.ofZ 0 else JS.ofZ 255.

(** The three colour channels of a pixel. *)
Definition CHANNELS : list nat := [0; 1; 2]%nat.

Section ErrorDiffusion.

Variables (width_ height_ : nat) (strength_ : num).

(** One entry of the kernel, for the error of a channel of pixel [(x, y)]. *)
Definition diffuseTap (isRightToLeft : bool) (x y channel : nat) (err : num)
    (newData : list Z) (tap : Tap) : list Z :=
  let '(dx, dy, weight) := tap in
  let nx := Z.of_nat x + (if isRightToLeft then - dx else dx) in
  let ny := Z.of_nat y + dy in
  if (0 <=? nx) && (nx <? Z.of_nat width_) && (0 <=? ny) && (ny <? Z.of_nat height_)
  then
    let neighborIndex :=
      Z.to_nat ((ny * Z.of_nat width_ + nx) * 4 + Z.of_nat channel) in
    store newData neighborIndex
      (clamp255 (JS.add (load newData neighborIndex) (JS.mul err weight)))
  else newData.

Definition diffuseChannel (kernel : list Tap) (isRightToLeft : bool) (x y : nat)
    (newData : list Z) (channel : nat) : list Z :=
  let index := ((y * width_ + x) * 4)%nat in
  let oldPixel := load newData (index + channel) in
  let newPixel := quantize oldPixel in
  let err := JS.mul (JS.sub oldPixel newPixel) strength_ in
  let newData := store newData (index + channel) newPixel in
  foldl (diffuseTap isRightToLeft x y channel err) newData kernel.

(** The columns of row [y] in the order the scan visits them. *)
Definition scanOrder (serpentine : bool) (y : nat) : bool * list nat :=
  let isRightToLeft := serpentine && (y mod 2 =? 1)%nat in
  (isRightToLeft, if isRightToLeft then reverse (seq 0 width_) else seq 0 width_).

Definition errorDiffusionLoop (kernel : list Tap) (serpentine : bool)
    (newData : list Z) : list Z :=
  foldl (fun nd y =>
           let '(isRightToLeft, xs) := scanOrder serpentine y in
           foldl (fun nd x =>
                    foldl (diffuseChannel kernel isRightToLeft x y) nd CHANNELS)
                 nd xs)
        newData (seq 0 height_).

(** [if (cond) newData[i] += v] *)
Definition spread (cond : bool) (i : nat) (v : num) (newData : list Z) : list Z :=
  if cond then storeAdd newData i v else newData.

(** The quantisation that opens the body of every fixed-pattern variant:
    the new array and the scaled error. *)
Definition quantizeAt (newData : list Z) (i : nat) : list Z * num :=
  let oldPixel := load newData i in
  let newPixel := quantize oldPixel in
  (store newData i newPixel, JS.mul (JS.sub oldPixel newPixel) strength_).

Definition atkinsonChannel (x y : nat) (newData : list Z) (channel : nat) : list Z :=
  let w := width_ in
  let '(nd, err) := quantizeAt newData ((y * w + x) * 4 + channel) in
  let errorFraction := JS.div err (JS.ofZ 8) in
  let nd := spread (x + 1 <? w)%nat ((y * w + x + 1) * 4 + channel) errorFraction nd in
  let nd := spread (x + 2 <? w)%nat ((y * w + x + 2) * 4 + channel) errorFraction nd in
  let nd :=
    if (y + 1 <? height_)%nat then
      let nd := spread (1 <=? x)%nat (((y + 1) * w + x - 1) * 4 + channel) errorFraction nd in
      let nd := spread true (((y + 1) * w + x) * 4 + channel) errorFraction nd in
      spread (x + 1 <? w)%nat (((y + 1) * w + x + 1) * 4 + channel) errorFraction nd
    else nd in
  spread (y + 2 <? height_)%nat (((y + 2) * w + x) * 4 + channel) errorFraction nd.

(** [error * a / b] *)
Definition part (err : num) (a b : Z) : num :=
  JS.div (JS.mul err (JS.ofZ a)) (JS.ofZ b).

Definition burkesChannel (x y : nat) (newData : list Z) (channel : nat) : list Z :=
  let w := width_ in
  let '(nd, err) := quantizeAt newData ((y * w + x) * 4 + channel) in
  let nd := spread (x + 1 <? w)%nat ((y * w + x + 1) * 4 + channel) (part err 8 32) nd in
  let nd := spread (x + 2 <? w)%nat ((y * w + x + 2) * 4 + channel) (part err 4 32) nd in
  if (y + 1 <? height_)%nat then
    let nd := spread (2 <=? x)%nat (((y + 1) * w + x - 2) * 4 + channel) (part err 2 32) nd in
    let nd := spread (1 <=? x)%nat (((y + 1) * w + x - 1) * 4 + channel) (part err 4 32) nd in
    let nd := spread true (((y + 1) * w + x) * 4 + channel) (part err 8 32) nd in
    let nd := spread (x + 1 <? w)%nat (((y + 1) * w + x + 1) * 4 + channel) (part err 4 32) nd in
    spread (x + 2 <? w)%nat (((y + 1) * w + x + 2) * 4 + channel) (part err 2 32) nd
  else nd.

Definition sierraChannel (x y : nat) (newData : list Z) (channel : nat) : list Z :=
  let w := width_ in
  let '(nd, err) := quantizeAt newData ((y * w + x) * 4 + channel) in
  let nd := spread (x + 1 <? w)%nat ((y * w + x + 1) * 4 + channel) (part err 5 32) nd in
  let nd := spread (x + 2 <? w)%nat ((y * w + x + 2) * 4 + channel) (part err 3 32) nd in
  let nd :=
    if (y + 1 <? height_)%nat then
      let nd := spread (2 <=? x)%nat (((y + 1) * w + x - 2) * 4 + channel) (part err 2 32) nd in
      let nd := spread (1 <=? x)%nat (((y + 1) * w + x - 1) * 4 + channel) (part err 4 32) nd in
      let nd := spread true (((y + 1) * w + x) * 4 + channel) (part err 5 32) nd in
      let nd := spread (x + 1 <? w)%nat (((y + 1) * w + x + 1) * 4 + channel) (part err 4 32) nd in
      spread (x + 2 <? w)%nat (((y + 1) * w + x + 2) * 4 + channel) (part err 2 32) nd
    else nd in
  if (y + 2 <? height_)%nat then
    let nd := spread (1 <=? x)%nat (((y + 2) * w + x - 1) * 4 + channel) (part err 2 32) nd in
    let nd := spread true (((y + 2) * w + x) * 4 + channel) (part err 3 32) nd in
    spread (x + 1 <? w)%nat (((y + 2) * w + x + 1) * 4 + channel) (part err 2 32) nd
  else nd.

Definition sierraLiteChannel (x y : nat) (newData : list Z) (channel : nat) : list Z :=
  let w := width_ in
  let '(nd, err) := quantizeAt newData ((y * w + x) * 4 + channel) in
  let nd := spread (x + 1 <? w)%nat ((y * w + x + 1) * 4 + channel) (part err 2 4) nd in
  if (y + 1 <? height_)%nat then
    let nd := spread (1 <=? x)%nat (((y + 1) * w + x - 1) * 4 + channel) (part err 1 4) nd in
    spread true (((y + 1) * w + x) * 4 + channel) (part err 1 4) nd
  else nd.

(** The raster scan shared by the fixed-pattern variants: rows, columns,
    then the three channels. *)
Definition rasterLoop (body : nat -> nat -> list Z -> nat -> list Z)
    (newData : list Z) : list Z :=
  foldl (fun nd y =>
           foldl (fun nd x => foldl (body x y) nd CHANNELS) nd (seq 0 width_))
        newData (seq 0 height_).

End ErrorDiffusion.

(** [new Uint8ClampedArray(data)]: the elements of [data] are bytes already,
    the copy has the same elements. *)
Definition copyOf (d : list Z) : list Z := d.

Definition errorDiffusionDither (imageData : ImageData) (strength : num)
    (kernel : list Tap) (serpentine : bool) : ImageData :=
  let newData := copyOf (data imageData) in
  mkImageData
    (errorDiffusionLoop (width imageData) (height imageData) strength kernel
       serpentine newData)
    (width imageData) (height imageData).

Definition floydSteinbergDither (imageData : ImageData) (strength : num) : ImageData :=
  errorDiffusionDither imageData strength FLOYD_STEINBERG_KERNEL false.

Definition floydSteinbergSerpentineDither (imageData : ImageData) (strength : num)
    : ImageData :=
  errorDiffusionDither imageData strength FLOYD_STEINBERG_KERNEL true.

Definition jarvisJudiceNinkeDither (imageData : ImageData) (strength : num) : ImageData :=
  errorDiffusionDither imageData strength JARVIS_JUDICE_NINKE_KERNEL false.

Definition stuckiDither (imageData : ImageData) (strength : num) : ImageData :=
  errorDiffusionDither imageData strength STUCKI_KERNEL false.

(** A fixed-pattern variant, from the body of its channel loop. *)
Definition patternDither
    (body : nat -> nat -> num -> nat -> nat -> list Z -> nat -> list Z)
    (imageData : ImageData) (strength : num) : ImageData :=
  let w := width imageData in
  let h := height imageData in
  mkImageData (rasterLoop w h (body w h strength) (copyOf (data imageData))) w h.

Definition atkinsonDither : ImageData -> num -> ImageData := patternDither atkinsonChannel.
Definition burkesDither : ImageData -> num -> ImageData := patternDither burkesChannel.
Definition sierraDither : ImageData -> num -> ImageData := patternDither sierraChannel.
Definition sierraLiteDither : ImageData -> num -> ImageData :=
  patternDither sierraLiteChannel.

(** [matrix[i][j]] as a number, for a row that exists.  A missing entry is
    [undefined]. *)
Definition matrixAt (matrix : list (list Z)) (i j : nat) : num :=
  match matrix !! i with
  | Some row => match row !! j with Some v => JS.ofZ v | None => NaN end
  | None => NaN
  end.

Definition orderedThreshold (matrix : list (list Z)) (strength : num) (x y : nat) : num :=
  let matrixSize := length matrix in
  let maxValue := JS.ofZ (Z.of_nat matrixSize * Z.of_nat matrixSize - 1) in
  JS.mul (JS.mul (JS.div (matrixAt matrix (y mod matrixSize) (x mod matrixSize)) maxValue)
                 (JS.ofZ 255))
         strength.

(** [newData[i] = newData[i] > threshold ? 255 : 0] *)
Definition thresholdChannel (threshold : num) (index : nat) (newData : list Z)
    (channel : nat) : list Z :=
  let oldPixel := load newData (index + channel) in
  store newData (index + channel)
    (if JS.gtb oldPixel threshold then JS.ofZ 255 else JS.ofZ 0).

Definition orderedPixel (matrix : list (list Z)) (strength : num) (w : nat)
    (newData : list Z) (y x : nat) : list Z :=
  let index := ((y * w + x) * 4)%nat in
  let threshold := orderedThreshold matrix strength x y in
  foldl (thresholdChannel threshold index) newData CHANNELS.

(** With an empty matrix [y % 0] is [NaN] and [matrix[NaN]] is [undefined],
    so the first turn of the loops throws; with any other matrix the row
    [matrix[y % matrixSize]] exists. *)
Definition orderedDither (imageData : ImageData) (matrix : list (list Z))
    (strength : num) : result ImageData :=
  let w := width imageData in
  let h := height imageData in
  let newData := copyOf (data imageData) in
  if (length matrix =? 0)%nat && (0 <? w)%nat && (0 <? h)%nat then Throw TypeError
  else
    Ok (mkImageData
          (foldl (fun nd y => foldl (fun nd x => orderedPixel matrix strength w nd y x)
                                    nd (seq 0 w))
                 newData (seq 0 h))
          w h).

(** [a[i] = v] on an ordinary array, which grows when [i] is past its end;
    the holes read as [undefined]. *)
Definition arraySet (a : list num) (i : nat) (v : num) : list num :=
  if (i <? length a)%nat then <[ i := v ]> a
  else a ++ replicate (i - length a) NaN ++ [v].

(** [map[y][x]] as a number, for rows that exist. *)
Definition mapAt (m : list (list num)) (y x : nat) : num :=
  match m !! y with
  | Some row => match row !! x with Some v => v | None => NaN end
  | None => NaN
  end.

Definition OFFSETS : list Z := [-1; 0; 1].

Section BlueNoise.

(** The successive results of [Math.random()], each in [[0, 1)]. *)
Variable random : nat -> Q.

(** Sum of the eight neighbours of an interior cell [(x, y)]. *)
Definition localEnergy (m : list (list num)) (x y : nat) : num :=
  foldl (fun energy dy =>
           foldl (fun energy dx =>
                    if (dx =? 0) && (dy =? 0) then energy
                    else JS.add energy
                           (mapAt m (Z.to_nat (Z.of_nat y + dy))
                                    (Z.to_nat (Z.of_nat x + dx))))
                 energy OFFSETS)
        (JS.ofZ 0) OFFSETS.

(** The search of one refinement turn, on [(maxEnergy, voidX, voidY)]. *)
Definition findVoid (w h : nat) (m : list (list num)) : num * nat * nat :=
  foldl (fun st y =>
           foldl (fun st x =>
                    let '(maxEnergy, voidX, voidY) := st in
                    let energy := localEnergy m x y in
                    if JS.gtb energy maxEnergy then (energy, x, y)
                    else (maxEnergy, voidX, voidY))
                 st (seq 1 (w - 2)))
        (NInf, 0%nat, 0%nat) (seq 1 (h - 2)).

(** [map[voidY][voidX] *= 0.5]; a missing row throws. *)
Definition refine (w h : nat) (m : list (list num)) (iteration : nat)
    : result (list (list num)) :=
  let '(_, voidX, voidY) := findVoid w h m in
  match m !! voidY with
  | Some row =>
      let v := match row !! voidX with Some v => v | None => NaN end in
      Ok (<[ voidY := arraySet row voidX (JS.mul v (lit 5 10)) ]> m)
  | None => Throw TypeError
  end.

Definition generateBlueNoiseMap (w h : nat) : result (list (list num)) :=
  let m := map (fun y => map (fun x => Fin (random (y * w + x))) (seq 0 w)) (seq 0 h) in
  foldM (refine w h) (seq 0 10) m.

Definition blueNoisePixel (noiseMap : list (list num)) (strength : num) (w : nat)
    (newData : list Z) (y x : nat) : list Z :=
  let index := ((y * w + x) * 4)%nat in
  let threshold := JS.mul (JS.mul (mapAt noiseMap y x) (JS.ofZ 255)) strength in
  foldl (thresholdChannel threshold index) newData CHANNELS.

Definition blueNoiseDither (imageData : ImageData) (strength : num) : result ImageData :=
  let w := width imageData in
  let h := height imageData in
  let newData := copyOf (data imageData) in
  noiseMap ← generateBlueNoiseMap w h;
  Ok (mkImageData
        (foldl (fun nd y => foldl (fun nd x => blueNoisePixel noiseMap strength w nd y x)
                                  nd (seq 0 w))
               newData (seq 0 h))
        w h).

End BlueNoise.

(** [(data[i] + data[i + 1] + data[i + 2]) / 3] *)
Definition meanRGB (d : list Z) (i : nat) : num :=
  JS.div (JS.add (JS.add (load d i) (load d (i + 1))) (load d (i + 2))) (JS.ofZ 3).

Definition calculateLocalContrast (d : list Z) (x y w h : nat) : num :=
  let index := ((y * w + x) * 4)%nat in
  let centerBrightness := meanRGB d index in
  let maxDiff :=
    foldl (fun maxDiff dy =>
             foldl (fun maxDiff dx =>
                      let nx := Z.of_nat x + dx in
                      let ny := Z.of_nat y + dy in
                      if (0 <=? nx) && (nx <? Z.of_nat w) && (0 <=? ny) && (ny <? Z.of_nat h)
                      then
                        let neighborIndex := Z.to_nat ((ny * Z.of_nat w + nx) * 4) in
                        let neighborBrightness := meanRGB d neighborIndex in
                        JS.max maxDiff (JS.abs (JS.sub centerBrightness neighborBrightness))
                      else maxDiff)
                   maxDiff OFFSETS)
          (JS.ofZ 0) OFFSETS in
  JS.div maxDiff (JS.ofZ 255).

Definition adaptiveChannel (d : list Z) (w h : nat) (strength : num) (x y : nat)
    (newData : list Z) (channel : nat) : list Z :=
  let index := ((y * w + x) * 4)%nat in
  let contrast := calculateLocalContrast d x y w h in
  let oldPixel := load newData (index + channel) in
  let '(newPixel, nd) :=
    if JS.gtb contrast (lit 3 10) then (quantize oldPixel, newData)
    else if JS.gtb contrast (lit 1 10) then
      let newPixel := quantize oldPixel in
      let err := JS.mul (JS.mul (JS.sub oldPixel newPixel) strength) (lit 7 10) in
      let nd := spread (x + 1 <? w)%nat ((y * w + x + 1) * 4 + channel)
                  (JS.mul err (lit 4 10)) newData in
      let nd := spread ((y + 1 <? h)%nat && (0 <? x)%nat)
                  (((y + 1) * w + x - 1) * 4 + channel) (JS.mul err (lit 2 10)) nd in
      let nd := spread (y + 1 <? h)%nat (((y + 1) * w + x) * 4 + channel)
                  (JS.mul err (lit 3 10)) nd in
      (newPixel, nd)
    else
      let threshold :=
        JS.mul (JS.mul (JS.div (JS.ofnat ((x mod 4) * 4 + y mod 4)) (JS.ofZ 16))
                       (JS.ofZ 255))
               strength in
      ((if JS.gtb oldPixel threshold then JS.ofZ 255 else JS.ofZ 0), newData) in
  store nd (index + channel) (clamp255 newPixel).

(** The contrast map is computed from the input before the pass, so each
    entry is [calculateLocalContrast] of the input at its pixel. *)
Definition adaptiveHybridDither (imageData : ImageData) (strength : num) : ImageData :=
  let w := width imageData in
  let h := height imageData in
  mkImageData
    (rasterLoop w h (adaptiveChannel (data imageData) w h strength)
       (copyOf (data imageData)))
    w h.

Section Dispatch.

Variable random : nat -> Q.

Definition applyDithering (imageData : ImageData) (options : DitheringOptions)
    : result ImageData :=
  let algorithm := algorithm options in
  let strength := strength options in
  if String.eqb algorithm "none" || JS.eqb strength (JS.ofZ 0) then Ok imageData
  else if String.eqb algorithm "floyd-steinberg" then
    Ok (floydSteinbergDither imageData strength)
  else if String.eqb algorithm "floyd-steinberg-serpentine" then
    Ok (floydSteinbergSerpentineDither imageData strength)
  else if String.eqb algorithm "jarvis-judice-ninke" then
    Ok (jarvisJudiceNinkeDither imageData strength)
  else if String.eqb algorithm "stucki" then
    Ok (stuckiDither imageData strength)
  else if String.eqb algorithm "atkinson" then
    Ok (atkinsonDither imageData strength)
  else if String.eqb algorithm "burkes" then
    Ok (burkesDither imageData strength)
  else if String.eqb algorithm "sierra" then
    Ok (sierraDither imageData strength)
  else if String.eqb algorithm "sierra-lite" then
    Ok (sierraLiteDither imageData strength)
  else if String.eqb algorithm "ordered-2x2" then
    orderedDither imageData ORDERED_2X2 strength
  else if String.eqb algorithm "ordered-4x4" then
    orderedDither imageData ORDERED_4X4 strength
  else if String.eqb algorithm "ordered-8x8" then
    orderedDither imageData ORDERED_8X8 strength
  else if String.eqb algorithm "blue-noise" then
    blueNoiseDither random imageData strength
  else if String.eqb algorithm "adaptive-hybrid" then
    Ok (adaptiveHybridDither imageData strength)
  else Ok imageData.

End Dispatch.

(* ------------------------------------------------------------------ *)
(** ** The formulas of the specification *)

(** Each formula comes twice: as the specification words it, on exact
    rationals, and with every operation rounded to binary64 in the order
    the source evaluates it. *)

(** The row count of the specification. *)
Definition claimedRowCount (sourceWidth sourceHeight targetColumns : nat)
    (preserveAspectRatio : bool) (cellAspectRatio : Q) : Z :=
  let columns := inject_Z (Z.of_nat targetColumns) in
  if preserveAspectRatio then
    Qfloor ((columns / (inject_Z (Z.of_nat sourceWidth) / inject_Z (Z.of_nat sourceHeight)))
            * cellAspectRatio)
  else
    Qfloor (columns * (1 # 2)).

(** The same quotient, quotient and product, each rounded. *)
Definition roundedRowCount (sourceWidth sourceHeight targetColumns : nat)
    (cellAspectRatio : Q) : Z :=
  let aspect := JS.rnd (inject_Z (Z.of_nat sourceWidth) / inject_Z (Z.of_nat sourceHeight)) in
  Qfloor (JS.rnd (JS.rnd (inject_Z (Z.of_nat targetColumns) / aspect) * cellAspectRatio)).





(** The source coordinate of target coordinate [x] when [s] source pixels
    are resampled to [t]: [floor(x * s / t)] in the words of the claim, and
    with the scale [s / t] and the product rounded. *)
Definition claimedSource (x s t : nat) : nat := (x * s / t)%nat.

Definition roundedSource (x s t : nat) : nat :=
  Z.to_nat
    (Qfloor (JS.rnd (inject_Z (Z.of_nat x)
                     * JS.rnd (inject_Z (Z.of_nat s) / inject_Z (Z.of_nat t))))).

(** The entry [matrix[ym][xm]] of a threshold matrix. *)
Definition matrixEntry (matrix : list (list Z)) (ym xm : nat) : Z :=
  nth xm (nth ym matrix []) 0.

(** The output of an ordered-dither channel in the words of the claim: a
    function of the old value, the residues of the position and the
    strength. *)
Definition claimedOrderedChannel (matrix : list (list Z)) (strength : Q) (old : Z)
    (xm ym : nat) : Z :=
  let n := Z.of_nat (length matrix) in
  let threshold :=
    ((inject_Z (matrixEntry matrix ym xm) / inject_Z (n * n - 1)) * 255 * strength)%Q in
  if JS.Qltb threshold (inject_Z old) then 255 else 0.

(** The same quotient and two products, each rounded. *)
Definition orderedChannel (matrix : list (list Z)) (strength : num) (old : Z)
    (xm ym : nat) : Z :=
  let n := Z.of_nat (length matrix) in
  let threshold :=
    JS.mul (JS.mul (JS.div (JS.ofZ (matrixEntry matrix ym xm)) (JS.ofZ (n * n - 1)))
                   (JS.ofZ 255))
           strength in
  if JS.ltb threshold (JS.ofZ old) then 255 else 0.

(** A square matrix with at least one row. *)
Definition squareMatrix (matrix : list (list Z)) : Prop :=
  (0 < length matrix)%nat /\ Forall (fun row => length row = length matrix) matrix.

(** The three matrices of the source. *)
Definition ORDERED_MATRICES : list (list (list Z)) :=
  [ORDERED_2X2; ORDERED_4X4; ORDERED_8X8].

(** The squared Euclidean distance between a colour and a palette entry. *)
Definition euclidSq (r g b : Q) (p : Z * Z * Z) : Q :=
  let '(pr, pg, pb) := p in
  (r - inject_Z pr) * (r - inject_Z pr)
  + (g - inject_Z pg) * (g - inject_Z pg)
  + (b - inject_Z pb) * (b - inject_Z pb).

(** The same three differences, three squares and two sums, each rounded:
    what the source takes the square root of, for a colour and an entry
    with components in [[0, 255]]. *)
Definition roundedSq (r g b : Q) (p : Z * Z * Z) : Q :=
  let '(pr, pg, pb) := p in
  let dr := JS.rnd (r - inject_Z pr) in
  let dg := JS.rnd (g - inject_Z pg) in
  let db := JS.rnd (b - inject_Z pb) in
  JS.rnd (JS.rnd (JS.rnd (dr * dr) + JS.rnd (dg * dg)) + JS.rnd (db * db)).

(** A colour component in the range of a byte. *)
Definition inByteRange (v : Q) : Prop := (0 <= v <= 255)%Q.

Definition byteEntry (p : Z * Z * Z) : bool :=
  let '(pr, pg, pb) := p in
  (0 <=? pr) && (pr <=? 255) && (0 <=? pg) && (pg <=? 255) && (0 <=? pb) && (pb <=? 255).

(** [a <= b] on numbers that are not [NaN]. *)
Definition leb (a b : num) : bool := negb (JS.ltb b a).

(** The state of the search after the first [n] palette entries: nothing
    yet, or the first entry of least computed distance among them. *)
Definition firstLeast (r g b : num) (palette : list (Z * Z * Z)) (n : nat)
    (st : num * nat) : Prop :=
  (n = 0%nat /\ st = (PInf, 0%nat)) \/
  exists pk,
    (snd st < n)%nat /\ palette !! snd st = Some pk /\
    fst st = colorDistance r g b pk /\
    forall j pj, (j < n)%nat -> palette !! j = Some pj ->
      leb (colorDistance r g b pk) (colorDistance r g b pj) = true /\
      ((j < snd st)%nat ->
       JS.ltb (colorDistance r g b pk) (colorDistance r g b pj) = true).

(** A number that is neither negative nor [NaN]. *)
Definition nonneg (v : num) : Prop :=
  match v with
  | Fin q => (0 <= q)%Q
  | PInf => True
  | _ => False
  end.

(** [(r + g + b) / 3] as the source computes it. *)
Definition meanColor (r g b : num) : num :=
  JS.div (JS.add (JS.add r g) b) (JS.ofZ 3).

(** Two option values that agree on every field but [height]. *)
Definition sameExceptHeight (o1 o2 : ConversionOptions) : Prop :=
  opt_width o1 = opt_width o2 /\
  opt_asciiSet o1 = opt_asciiSet o2 /\
  opt_artStyle o1 = opt_artStyle o2 /\
  opt_maintainAspectRatio o1 = opt_maintainAspectRatio o2 /\
  opt_fontSize o1 = opt_fontSize o2 /\
  opt_contrast o1 = opt_contrast o2 /\
  opt_brightness o1 = opt_brightness o2 /\
  opt_charAspectRatio o1 = opt_charAspectRatio o2 /\
  opt_colorScheme o1 = opt_colorScheme o2 /\
  opt_useColors o1 = opt_useColors o2 /\
  opt_colorPalette o1 = opt_colorPalette o2.

(** The number of rows of an output: the rows of the grid, or the line
    ends of the text. *)
Definition rowCount (out : Output) : nat :=
  match out with
  | Text s => count_occ N.eq_dec s NEWLINE
  | Cells rows => length rows
  end.

(** The row count the conversion asks for: a function of the source
    dimensions and of [width], [maintainAspectRatio], [charAspectRatio]. *)
Definition requestedRows (sourceWidth sourceHeight : nat) (width_ : nat)
    (maintainAspectRatio : bool) (charAspectRatio : num) : result nat :=
  allocRows width_
    (dim_height
       (calculateDimensions (JS.ofnat sourceWidth) (JS.ofnat sourceHeight)
          (JS.ofnat width_) maintainAspectRatio charAspectRatio)).

(** Whether the conversion takes the coloured path. *)
Definition coloured (options : ConversionOptions) : bool :=
  match opt_artStyle options, opt_useColors options with
  | ansi_style, Some true => true
  | _, _ => false
  end.


(** The first [n] turns of a row, and the two nested loops over a grid
    [w] wide and [h] high, for a body that rewrites the array. *)
Definition rowLoop (body : list Z -> nat -> nat -> list Z) (n : nat) (d : list Z)
    (y : nat) : list Z :=
  foldl (fun nd x => body nd y x) d (seq 0 n).

Definition pixelLoop (w : nat) (body : list Z -> nat -> nat -> list Z) (h : nat)
    (d : list Z) : list Z :=
  foldl (fun nd y => foldl (fun nd x => body nd y x) nd (seq 0 w)) d (seq 0 h).

(** What a store of a loaded source element leaves: the element, or [0]
    for an [undefined] one. *)
Definition copied (source : list Z) (i : nat) : Z :=
  JS.toUint8Clamp (load source i).

(** The largest side of an image for which the properties of the resampler
    are stated: every index stays far below [2^53]. *)
Definition MAX_SIDE : Z := 65536.

(** The numbers of a conformance sample, and the four operations and the
    square root on a pair of primitive binary64 numbers, replayed by the
    embedding. *)
Definition replays (ab : float * float) : bool :=
  let '(a, b) := ab in
  let x := JS.ofFloat a in
  let y := JS.ofFloat b in
  let same (u : num) (f : float) : bool :=
    match u, JS.ofFloat f with
    | Fin p, Fin q => Z.eqb (Qnum p) (Qnum q) && Pos.eqb (Qden p) (Qden q)
    | PInf, PInf | NInf, NInf | NaN, NaN => true
    | _, _ => false
    end in
  same (JS.add x y) (a + b)%float &&
  same (JS.sub x y) (a - b)%float &&
  same (JS.mul x y) (a * b)%float &&
  same (JS.div x y) (a / b)%float &&
  same (JS.sqrt x) (PrimFloat.sqrt a).

(** Pseudo-random binary64 numbers: 53 bits of mantissa, a sign, and a
    binary exponent of magnitude at most [range]. *)
Definition nextSeed (s : Z) : Z :=
  (s * 6364136223846793005 + 1442695040888963407) mod 2 ^ 64.

Definition floatOfSeed (range s : Z) : float :=
  let m := s mod 2 ^ 53 in
  let e := (s / 2 ^ 53) mod (2 * range + 1) - range - 52 in
  let f := Z.ldexp (PrimFloat.of_uint63 (Uint63.of_Z m)) e in
  if Z.even (s / 2 ^ 52) then f else PrimFloat.opp f.

Fixpoint seededSamples (n : nat) (range s : Z) : list (float * float) :=
  match n with
  | O => []
  | S n =>
      let s1 := nextSeed s in
      let s2 := nextSeed s1 in
      (floatOfSeed range s1, floatOfSeed range s2) :: seededSamples n range s2
  end.

(** The operands met in the properties below, then seeded ones: of
    moderate size, across the whole normal range, and reaching into the
    overflow and the subnormal numbers. *)
Definition CONFORMANCE_SAMPLES : list (float * float) :=
  [ (30, 22); (11, 30 / 22); (1920, 22); (11, 1920 / 22);
    (7, 3); (70, 7 / 3); (70 / (7 / 3), 5 / 10);
    (800, 580); (80, 800 / 580); (80 / (800 / 580), 5 / 10);
    (1, 3); (1 / 3, 255); (1 / 3 * 255, 6 / 10); (51, 1 / 3 * 255 * (6 / 10));
    (155, 255); (155 / 255, 51);
    (299 / 1000, 10); (587 / 1000, 32); (114 / 1000, 59);
    (299 / 1000 * 10, 587 / 1000 * 32);
    (299 / 1000 * 10 + 587 / 1000 * 32, 114 / 1000 * 59);
    (95 / 2 + Z.ldexp 1 (-47), 95); (95 / 2, 175); (195, 175);
    ((95 / 2 + Z.ldexp 1 (-47)) * (95 / 2 + Z.ldexp 1 (-47)), 95 / 2 * (95 / 2));
    ((95 / 2 + Z.ldexp 1 (-47)) * (95 / 2 + Z.ldexp 1 (-47)) + 95 / 2 * (95 / 2) + 400, 1);
    ((95 / 2 - Z.ldexp 1 (-47)) * (95 / 2 - Z.ldexp 1 (-47)) + 95 / 2 * (95 / 2) + 400, 1);
    (100, 7 / 16); (100, 7 / 48); (100 * (7 / 48), 100); (10, 0); (0, 0);
    (2, 1); (2, 2); (2, 3); (Z.ldexp 1 1023, 2); (Z.ldexp 1 1023, Z.ldexp 1 1023);
    (Z.ldexp 1 (-1074), 2); (Z.ldexp 3 (-1074), 2); (Z.ldexp 1 (-1022), 3);
    (Z.ldexp 1 (-600), Z.ldexp 1 (-600)); (9007199254740992, 3);
    (9007199254740992, 1); (1, Z.ldexp 1 (-53)); (1, Z.ldexp 3 (-54)) ]%float
  ++ seededSamples 40 8 1 ++ seededSamples 40 300 2 ++ seededSamples 40 1060 3.

(* ------------------------------------------------------------------ *)
(** ** Sample images and options *)

Definition blackPixel : ImageData := mkImageData [0; 0; 0; 255] 1 1.

(** Two columns, one row, coloured ANSI output, contrast [1], brightness [+10]. *)
Definition brighterColoured : ConversionOptions :=
  mkOptions 2 None "minimal" ansi_style false (JS.ofZ 10) (JS.ofZ 1) (JS.ofZ 10)
    (lit 5 10) (Some white_on_black) (Some true) (Some ansi_16).

Definition undefinedCell : AnsiPixel :=
  mkAnsiPixel None (Some 0%nat) None (Some (NaN, NaN, NaN)).



Definition gray2 : ImageData :=
  mkImageData [128; 128; 128; 255; 128; 128; 128; 255] 2 1.

Definition plainOptions (h : option num) : ConversionOptions :=
  mkOptions 4 h "minimal" ascii_style false (JS.ofZ 10) (JS.ofZ 1) (JS.ofZ 0)
    (lit 5 10) None None None.

(** A 2x2 image of value 51 and a 5x5 one of the same value. *)
Definition dim2 : ImageData :=
  mkImageData (concat (replicate 4 [51; 51; 51; 255])) 2 2.

Definition dim5 : ImageData :=
  mkImageData (concat (replicate 25 [51; 51; 51; 255])) 5 5.

Definition checker2 : ImageData :=
  mkImageData [ 10; 20; 30; 255;   200; 210; 220; 255;
                40; 50; 60; 255;   100; 110; 120; 255 ] 2 2.

(** One row of 30 pixels, pixel [k] of value [k]. *)
Definition gradient30 : ImageData :=
  mkImageData (flat_map (fun k => [Z.of_nat k; Z.of_nat k; Z.of_nat k; 255]) (seq 0 30))
    30 1.


(** The binary64 value next above [47.5], which is [47.5 + 2^-47]. *)
Definition above47_5 : Q := (95 # 2) + (1 # 140737488355328).

Definition onePixel : ImageData := mkImageData [100; 100; 100; 255] 1 1.

Definition twoPixels : ImageData :=
  mkImageData [100; 100; 100; 255; 100; 100; 100; 255] 2 1.

(* ------------------------------------------------------------------ *)
(** * Properties *)

(** ** Numbers *)

Lemma Qltb_lt (a b : Q) : JS.Qltb a b = true <-> (a < b)%Q.
Proof.
  unfold JS.Qltb. rewrite negb_true_iff, <- not_true_iff_false, Qle_bool_iff.
  split; [apply Qnot_le_lt | apply Qlt_not_le].
Qed.

Lemma Qltb_ge (a b : Q) : JS.Qltb a b = false <-> (b <= a)%Q.
Proof.
  unfold JS.Qltb. rewrite negb_false_iff. apply Qle_bool_iff.
Qed.

Lemma Qeq_bool_false (a b : Q) : ~ (a == b)%Q -> Qeq_bool a b = false.
Proof.
  intros H. apply not_true_iff_false. intros E. apply H, Qeq_bool_iff, E.
Qed.

Lemma Qle_bool_false (a b : Q) : (b < a)%Q -> Qle_bool a b = false.
Proof.
  intros H. apply not_true_iff_false. intros E. apply Qle_bool_iff in E.
  exact (Qlt_not_le _ _ H E).
Qed.

Lemma inject_Z_nonneg (z : Z) : 0 <= z -> (0 <= inject_Z z)%Q.
Proof. intros H. change 0%Q with (inject_Z 0). now rewrite <- Zle_Qle. Qed.

(** *** Rounding to an integer *)

Lemma roundHalfEven_lower (x : Q) (a : Z) :
  (inject_Z a <= x)%Q -> a <= JS.roundHalfEven x.
Proof.
  intros H. apply Qfloor_resp_le in H. rewrite Qfloor_Z in H.
  unfold JS.roundHalfEven.
  destruct (Qcompare _ _); [destruct (Z.even _)| |]; lia.
Qed.

Lemma roundHalfEven_upper (x : Q) (b : Z) :
  (x <= inject_Z b)%Q -> JS.roundHalfEven x <= b.
Proof.
  intros H. pose proof (Qfloor_resp_le _ _ H) as Hf. rewrite Qfloor_Z in Hf.
  unfold JS.roundHalfEven.
  assert (Hstep : (1 # 2 <= x - inject_Z (Qfloor x))%Q -> Qfloor x + 1 <= b).
  { intros Hhalf. destruct (Z.eq_dec (Qfloor x) b) as [E|E]; [|lia].
    rewrite E in Hhalf. lra. }
  destruct (Qcompare_spec (x - inject_Z (Qfloor x)) (1 # 2)) as [E|E|E].
  - destruct (Z.even _); [lia|]. apply Hstep. rewrite E. apply Qle_refl.
  - lia.
  - apply Hstep. now apply Qlt_le_weak.
Qed.

(** *** Powers of two *)

Lemma pow2_pos (e : Z) : (0 < 2 ^ e)%Q.
Proof. now apply Qpower_0_lt. Qed.

Lemma pow2_add (a b : Z) : (2 ^ (a + b) == 2 ^ a * 2 ^ b)%Q.
Proof. now apply Qpower_plus. Qed.

Lemma pow2_Z (k : Z) : 0 <= k -> (inject_Z (2 ^ k) == 2 ^ k)%Q.
Proof. intros H. now rewrite Zpower_Qpower. Qed.

Lemma pow2_le (a b : Z) : a <= b -> (2 ^ a <= 2 ^ b)%Q.
Proof. intros H. now apply Qpower_le_compat_l. Qed.

Lemma pow2_le_inv (a b : Z) : (2 ^ a <= 2 ^ b)%Q -> a <= b.
Proof. intros H. now apply (Qpower_le_compat_l_inv 2). Qed.

Lemma pow2_lt_inv (a b : Z) : (2 ^ a < 2 ^ b)%Q -> a < b.
Proof. intros H. now apply (Qpower_lt_compat_l_inv 2). Qed.

(** *** The binary exponent *)

Lemma Qabs_make (n : Z) (d : positive) :
  (Qabs (n # d) == inject_Z (Z.abs n) / inject_Z (Zpos d))%Q.
Proof. unfold Qabs. apply Qmake_Qdiv. Qed.

(** [ilog2] is the binary exponent: [2^e <= |q| < 2^(e+1)]. *)
Lemma ilog2_spec (q : Q) :
  ~ (q == 0)%Q -> (2 ^ JS.ilog2 q <= Qabs q < 2 ^ (JS.ilog2 q + 1))%Q.
Proof.
  intros Hq. destruct q as [n d]. unfold JS.ilog2. cbn [Qnum Qden].
  assert (Hn : 0 < Z.abs n).
  { destruct (Z.eq_dec n 0) as [->|]; [|lia]. exfalso. apply Hq. reflexivity. }
  destruct (Z.log2_spec _ Hn) as [Hn1 Hn2].
  destruct (Z.log2_spec (Zpos d) ltac:(lia)) as [Hd1 Hd2].
  pose proof (Z.log2_nonneg (Z.abs n)) as Hln.
  pose proof (Z.log2_nonneg (Zpos d)) as Hld.
  set (ln := Z.log2 (Z.abs n)) in *. set (ld := Z.log2 (Zpos d)) in *.
  rewrite Zle_Qle in Hn1, Hd1. rewrite Zlt_Qlt in Hn2, Hd2.
  rewrite pow2_Z in Hn1, Hn2, Hd1, Hd2 by lia.
  assert (Hdpos : (0 < inject_Z (Zpos d))%Q) by reflexivity.
  assert (Hlow : (2 ^ (ln - ld - 1) <= inject_Z (Z.abs n) / inject_Z (Zpos d))%Q).
  { apply Qle_shift_div_l; [exact Hdpos|].
    apply Qle_trans with (2 ^ (ln - ld - 1) * 2 ^ Z.succ ld)%Q.
    - apply Qmult_le_l; [apply pow2_pos | now apply Qlt_le_weak].
    - rewrite <- pow2_add. replace (ln - ld - 1 + Z.succ ld) with ln by lia. exact Hn1. }
  assert (Hhigh : (inject_Z (Z.abs n) / inject_Z (Zpos d) < 2 ^ (ln - ld + 1))%Q).
  { apply Qlt_shift_div_r; [exact Hdpos|].
    apply Qlt_le_trans with (2 ^ Z.succ ln)%Q; [exact Hn2|].
    apply Qle_trans with (2 ^ (ln - ld + 1) * 2 ^ ld)%Q.
    - rewrite <- pow2_add. replace (ln - ld + 1 + ld) with (Z.succ ln) by lia.
      apply Qle_refl.
    - apply Qmult_le_l; [apply pow2_pos | exact Hd1]. }
  destruct (Qle_bool (2 ^ (ln - ld)) (Qabs (n # d))) eqn:E.
  - apply Qle_bool_iff in E. split; [exact E|]. rewrite Qabs_make. exact Hhigh.
  - split; [rewrite Qabs_make; exact Hlow|].
    replace (ln - ld - 1 + 1) with (ln - ld) by lia.
    apply Qnot_le_lt. intros H. apply Qle_bool_iff in H. congruence.
Qed.

Lemma ulpExp_le (q : Q) (k : Z) :
  ~ (q == 0)%Q -> k <= 1074 -> (Qabs q <= 2 ^ (52 - k))%Q -> JS.ulpExp q <= - k.
Proof.
  intros Hq Hk Hb. destruct (ilog2_spec q Hq) as [Hlow _].
  assert (JS.ilog2 q <= 52 - k) by (apply pow2_le_inv; lra).
  unfold JS.ulpExp. lia.
Qed.

(** *** Rounding to binary64 *)

Lemma roundHalfEven_comp (p q : Q) : (p == q)%Q -> JS.roundHalfEven p = JS.roundHalfEven q.
Proof.
  intros E. unfold JS.roundHalfEven. rewrite (Qfloor_comp _ _ E).
  assert (Ec : ((p - inject_Z (Qfloor q) ?= 1 # 2) = (q - inject_Z (Qfloor q) ?= 1 # 2))%Q)
    by now rewrite E.
  now rewrite Ec.
Qed.

Lemma rnd_comp (p q : Q) : (p == q)%Q -> JS.rnd p = JS.rnd q.
Proof. intros E. unfold JS.rnd. now rewrite (Qred_complete _ _ E). Qed.

Lemma rnd_canonical (q : Q) : Qred (JS.rnd q) = JS.rnd q.
Proof.
  unfold JS.rnd. destruct (Qeq_bool _ _); [reflexivity | apply Qred_complete, Qred_correct].
Qed.

Lemma Qred_Z (z : Z) : Qred (inject_Z z) = inject_Z z.
Proof.
  unfold Qred, inject_Z.
  pose proof (Z.ggcd_gcd z 1) as Hg.
  pose proof (Z.ggcd_correct_divisors z 1) as Hd.
  destruct (Z.ggcd z 1) as [g [aa bb]]. cbn [fst snd] in *.
  rewrite Z.gcd_1_r in Hg. subst g.
  assert (aa = z) as -> by lia. assert (bb = 1) as -> by lia. reflexivity.
Qed.

Lemma scaled_le (a b k : Z) : a <= b -> (inject_Z a / 2 ^ k <= inject_Z b / 2 ^ k)%Q.
Proof.
  intros H. apply Qmult_le_compat_r; [now rewrite <- Zle_Qle|].
  apply Qlt_le_weak, Qinv_lt_0_compat, pow2_pos.
Qed.

Lemma pow2_52 (k : Z) : (2 ^ (52 - k) == inject_Z (2 ^ 52) / 2 ^ k)%Q.
Proof.
  rewrite pow2_Z by lia. now apply Qpower_minus.
Qed.

(** A value between two multiples of [2^-k] that have at most 53 bits
    rounds to a value between them: these multiples are binary64 values. *)
Lemma rnd_between (q : Q) (a b k : Z) :
  0 <= k <= 1074 -> - 2 ^ 52 <= a -> b <= 2 ^ 52 ->
  (inject_Z a / 2 ^ k <= q)%Q -> (q <= inject_Z b / 2 ^ k)%Q ->
  (inject_Z a / 2 ^ k <= JS.rnd q <= inject_Z b / 2 ^ k)%Q.
Proof.
  intros Hk Ha Hb Hlo Hhi. unfold JS.rnd.
  pose proof (Qred_correct q) as Eq. set (q' := Qred q) in *.
  rewrite <- Eq in Hlo, Hhi.
  destruct (Qeq_bool q' 0) eqn:E0.
  - apply Qeq_bool_iff in E0. rewrite E0 in Hlo, Hhi. split; assumption.
  - assert (Hq' : ~ (q' == 0)%Q).
    { intros H. apply Qeq_bool_iff in H. congruence. }
    assert (Habs : (Qabs q' <= 2 ^ (52 - k))%Q).
    { rewrite pow2_52. apply Qabs_Qle_condition. split.
      - apply Qle_trans with (inject_Z a / 2 ^ k)%Q; [|exact Hlo].
        assert (E : (- (inject_Z (2 ^ 52) / 2 ^ k) == inject_Z (- 2 ^ 52) / 2 ^ k)%Q).
        { rewrite inject_Z_opp. unfold Qdiv. ring. }
        rewrite E. now apply scaled_le.
      - apply Qle_trans with (inject_Z b / 2 ^ k)%Q; [exact Hhi|]. now apply scaled_le. }
    pose proof (ulpExp_le q' k Hq' ltac:(lia) Habs) as He.
    set (e := JS.ulpExp q') in *.
    assert (Hgrid : forall c : Z,
               (inject_Z c / 2 ^ k == inject_Z (c * 2 ^ (- k - e)) * 2 ^ e)%Q).
    { intros c. rewrite inject_Z_mult, pow2_Z by lia.
      rewrite <- Qmult_assoc, <- pow2_add.
      replace (- k - e + e) with (- k) by lia. now rewrite Qpower_opp. }
    rewrite Qred_correct, !Hgrid. split.
    + apply Qmult_le_compat_r; [|apply Qlt_le_weak, pow2_pos].
      rewrite <- Zle_Qle. apply roundHalfEven_lower.
      apply Qle_shift_div_l; [apply pow2_pos|]. now rewrite <- Hgrid.
    + apply Qmult_le_compat_r; [|apply Qlt_le_weak, pow2_pos].
      rewrite <- Zle_Qle. apply roundHalfEven_upper.
      apply Qle_shift_div_r; [apply pow2_pos|]. now rewrite <- Hgrid.
Qed.

Lemma rnd_between_Z (q : Q) (a b : Z) :
  - 2 ^ 52 <= a -> b <= 2 ^ 52 ->
  (inject_Z a <= q)%Q -> (q <= inject_Z b)%Q ->
  (inject_Z a <= JS.rnd q <= inject_Z b)%Q.
Proof.
  intros Ha Hb Hlo Hhi.
  assert (E : forall c : Z, (inject_Z c / 2 ^ 0 == inject_Z c)%Q).
  { intros c. change (2 ^ 0)%Q with 1%Q. unfold Qdiv. change (/ 1)%Q with 1%Q.
    apply Qmult_1_r. }
  rewrite <- (E a), <- (E b) in *. apply rnd_between; (lia || assumption).
Qed.

(** An integer of at most 53 bits is a binary64 value. *)
Lemma rnd_Z (q : Q) (z : Z) :
  - 2 ^ 52 <= z <= 2 ^ 52 -> (q == inject_Z z)%Q -> JS.rnd q = inject_Z z.
Proof.
  intros Hz E.
  destruct (rnd_between_Z q z z) as [H1 H2]; try lia; try (rewrite E; apply Qle_refl).
  rewrite <- rnd_canonical, <- (Qred_Z z). apply Qred_complete.
  now apply Qle_antisym.
Qed.

Lemma pow2_1024_Z : (2 ^ 1024 == inject_Z (2 ^ 1024))%Q.
Proof. now rewrite pow2_Z. Qed.

(** No infinity arises from a result of at most 53 bits before the point. *)
Lemma round64_between (q : Q) (a b : Z) :
  - 2 ^ 52 <= a -> b <= 2 ^ 52 ->
  (inject_Z a <= q)%Q -> (q <= inject_Z b)%Q ->
  JS.round64 q = Fin (JS.rnd q) /\ (inject_Z a <= JS.rnd q <= inject_Z b)%Q.
Proof.
  intros Ha Hb Hlo Hhi.
  destruct (rnd_between_Z q a b Ha Hb Hlo Hhi) as [H1 H2].
  split; [|now split]. unfold JS.round64.
  assert (Hbig : (inject_Z (2 ^ 52) < 2 ^ 1024)%Q).
  { rewrite pow2_1024_Z, <- Zlt_Qlt. reflexivity. }
  assert (Hb' : (inject_Z b <= inject_Z (2 ^ 52))%Q) by now rewrite <- Zle_Qle.
  assert (Ha' : (inject_Z (- 2 ^ 52) <= inject_Z a)%Q) by now rewrite <- Zle_Qle.
  rewrite inject_Z_opp in Ha'.
  rewrite Qle_bool_false by lra. rewrite Qle_bool_false by lra. reflexivity.
Qed.

Lemma round64_Z (q : Q) (z : Z) :
  - 2 ^ 52 <= z <= 2 ^ 52 -> (q == inject_Z z)%Q -> JS.round64 q = JS.ofZ z.
Proof.
  intros Hz E.
  destruct (round64_between q z z) as [H _]; try lia; try (rewrite E; apply Qle_refl).
  rewrite H. unfold JS.ofZ. f_equal. now apply rnd_Z.
Qed.

(** *** Conformance *)

(** On every sample the sum, the difference, the product, the quotient and
    the square root of the embedding are the numbers that the primitive
    binary64 operations of Rocq return. *)
Lemma binary64_conformance : forallb replays CONFORMANCE_SAMPLES = true.
Proof. vm_compute. reflexivity. Qed.

Lemma rnd_nonneg (q : Q) : (0 <= q)%Q -> (0 <= JS.rnd q)%Q.
Proof.
  intros Hq. unfold JS.rnd.
  pose proof (Qred_correct q) as Eq. set (q' := Qred q) in *. rewrite <- Eq in Hq.
  destruct (Qeq_bool q' 0); [apply Qle_refl|].
  rewrite Qred_correct. apply Qmult_le_0_compat; [|apply Qlt_le_weak, pow2_pos].
  apply inject_Z_nonneg, roundHalfEven_lower.
  apply Qle_shift_div_l; [apply pow2_pos|]. now rewrite Qmult_0_l.
Qed.

Lemma round64_nonneg (q : Q) : (0 <= q)%Q -> nonneg (JS.round64 q).
Proof.
  intros Hq. pose proof (rnd_nonneg q Hq) as Hr. unfold JS.round64.
  destruct (Qle_bool (2 ^ 1024) (JS.rnd q)); [exact I|].
  destruct (Qle_bool (JS.rnd q) (- 2 ^ 1024)) eqn:E; [|exact Hr].
  apply Qle_bool_iff in E. pose proof (pow2_pos 1024). cbn. lra.
Qed.

(** A byte survives the store into a clamped array. *)
Lemma toUint8Clamp_byte (v : Z) : 0 <= v <= 255 -> JS.toUint8Clamp (JS.ofZ v) = v.
Proof.
  intros [H0 H255]. unfold JS.toUint8Clamp, JS.ofZ.
  destruct (Qle_bool (inject_Z v) 0) eqn:E0.
  { apply Qle_bool_iff in E0. change 0%Q with (inject_Z 0) in E0.
    rewrite <- Zle_Qle in E0. lia. }
  destruct (Qle_bool 255 (inject_Z v)) eqn:E1.
  { apply Qle_bool_iff in E1. change 255%Q with (inject_Z 255) in E1.
    rewrite <- Zle_Qle in E1. lia. }
  unfold JS.roundHalfEven. rewrite Qfloor_Z.
  assert (E : (inject_Z v - inject_Z v ?= 1 # 2)%Q = Lt).
  { apply Qlt_alt. unfold Qminus. rewrite Qplus_opp_r. reflexivity. }
  now rewrite E.
Qed.

(** A rational that is an integer is a valid index. *)
Lemma toIndex_integer (q : Q) (z : Z) :
  (q == inject_Z z)%Q -> 0 <= z -> JS.toIndex (Fin q) = Some (Z.to_nat z).
Proof.
  intros E Hz. unfold JS.toIndex.
  assert (Hf : Qfloor q = z) by (rewrite (Qfloor_comp _ _ E); apply Qfloor_Z).
  rewrite Hf.
  assert (H1 : Qle_bool 0 q = true).
  { apply Qle_bool_iff. rewrite E. now apply inject_Z_nonneg. }
  assert (H2 : Qeq_bool q (inject_Z z) = true) by now apply Qeq_bool_iff.
  now rewrite H1, H2.
Qed.

Lemma toIndex_ofZ (z : Z) : 0 <= z -> JS.toIndex (JS.ofZ z) = Some (Z.to_nat z).
Proof. intros H. now apply toIndex_integer. Qed.

(** The sum, the difference and the product of two integers of the source
    are exact. *)
Lemma add_ofZ (a b : Z) :
  - 2 ^ 52 <= a + b <= 2 ^ 52 -> JS.add (JS.ofZ a) (JS.ofZ b) = JS.ofZ (a + b).
Proof.
  intros H. unfold JS.ofZ at 1 2. cbn [JS.add]. apply round64_Z; [exact H|].
  now rewrite inject_Z_plus.
Qed.


Lemma mul_ofZ (a b : Z) :
  - 2 ^ 52 <= a * b <= 2 ^ 52 -> JS.mul (JS.ofZ a) (JS.ofZ b) = JS.ofZ (a * b).
Proof.
  intros H. unfold JS.ofZ at 1 2. cbn [JS.mul]. apply round64_Z; [exact H|].
  now rewrite inject_Z_mult.
Qed.

(** ** C2 *)

(** C2. [applyDithering] with algorithm ['none'] at any strength, and with
    any algorithm at strength [0], returns the input buffer itself. *)
Theorem applyDithering_identity (random : nat -> Q) (buffer : ImageData)
    (s : num) (a : string) :
  applyDithering random buffer (mkDitheringOptions "none" s) = Ok buffer /\
  applyDithering random buffer (mkDitheringOptions a (JS.ofZ 0)) = Ok buffer.
Proof.
  split.
  - reflexivity.
  - unfold applyDithering. cbn [algorithm strength].
    replace (JS.eqb (JS.ofZ 0) (JS.ofZ 0)) with true by reflexivity.
    now rewrite orb_true_r.
Qed.

(** ** C10 *)









(** ** C6 *)

Lemma ofnat_nonzero (t : nat) : (0 < t)%nat -> Qeq_bool (inject_Z (Z.of_nat t)) 0 = false.
Proof.
  intros Ht. apply Qeq_bool_false. intros E.
  change 0%Q with (inject_Z 0) in E.
  apply (proj1 (inject_Z_injective _ _)) in E. lia.
Qed.

Lemma Qmult_le_nonneg_l (c x y : Q) : (0 <= c -> x <= y -> c * x <= c * y)%Q.
Proof. intros Hc H. rewrite !(Qmult_comm c). now apply Qmult_le_compat_r. Qed.

Lemma half_literal : lit 5 10 = Fin (1 # 2).
Proof. vm_compute. reflexivity. Qed.

(** Halving an integer is exact. *)
Lemma half_floor (columns : nat) :
  Z.of_nat columns <= 2 ^ 52 ->
  JS.floor (JS.mul (JS.ofnat columns) (lit 5 10)) = JS.ofnat (columns / 2).
Proof.
  intros Hmax. rewrite half_literal. unfold JS.ofnat, JS.ofZ at 1. cbn [JS.mul].
  set (c := Z.of_nat columns) in *.
  assert (Hc : (0 <= inject_Z c)%Q) by (apply inject_Z_nonneg; lia).
  assert (E : (inject_Z c * (1 # 2) == inject_Z c / 2 ^ 1)%Q) by reflexivity.
  destruct (round64_between (inject_Z c * (1 # 2)) 0 c) as [-> _]; try lia;
    change (inject_Z 0) with 0%Q; try lra.
  destruct (rnd_between (inject_Z c * (1 # 2)) c c 1) as [H1 H2]; try lia;
    try (rewrite E; apply Qle_refl).
  cbn [JS.floor]. unfold JS.ofZ. do 2 f_equal.
  rewrite (Qfloor_comp _ (inject_Z c / inject_Z 2)).
  - rewrite <- Zdiv_Qdiv. unfold c. now rewrite Nat2Z.inj_div.
  - apply Qle_antisym; [exact H2 | exact H1].
Qed.

(** The scale [s / t] of two sides: positive, and no larger than [s]. *)
Lemma scale_fin (s t : nat) :
  (0 < s)%nat -> (0 < t)%nat -> Z.of_nat s <= MAX_SIDE -> Z.of_nat t <= MAX_SIDE ->
  JS.div (JS.ofnat s) (JS.ofnat t)
    = Fin (JS.rnd (inject_Z (Z.of_nat s) / inject_Z (Z.of_nat t))) /\
  (1 # 65536 <= JS.rnd (inject_Z (Z.of_nat s) / inject_Z (Z.of_nat t)) <= 65536)%Q.
Proof.
  unfold MAX_SIDE. intros Hs Ht Hsmax Htmax.
  assert (Hs1 : (1 <= inject_Z (Z.of_nat s) <= 65536)%Q).
  { change 1%Q with (inject_Z 1). change 65536%Q with (inject_Z 65536).
    rewrite <- !Zle_Qle. lia. }
  assert (Ht1 : (1 <= inject_Z (Z.of_nat t) <= 65536)%Q).
  { change 1%Q with (inject_Z 1). change 65536%Q with (inject_Z 65536).
    rewrite <- !Zle_Qle. lia. }
  set (qs := inject_Z (Z.of_nat s)) in *. set (qt := inject_Z (Z.of_nat t)) in *.
  assert (Hlo : (1 # 65536 <= qs / qt)%Q).
  { apply Qle_shift_div_l; [lra|]. lra. }
  assert (Hhi : (qs / qt <= 65536)%Q).
  { apply Qle_shift_div_r; [lra|]. lra. }
  split.
  - unfold JS.ofnat, JS.ofZ, JS.div. rewrite (ofnat_nonzero t Ht). fold qs qt.
    destruct (round64_between (qs / qt) 0 65536) as [-> _]; try lia;
      change (inject_Z 0) with 0%Q; change (inject_Z 65536) with 65536%Q; try lra.
    reflexivity.
  - assert (E1 : (inject_Z 1 / 2 ^ 16 == 1 # 65536)%Q) by reflexivity.
    assert (E2 : (inject_Z (2 ^ 32) / 2 ^ 16 == 65536)%Q) by reflexivity.
    rewrite <- E1, <- E2. apply rnd_between; try lia; [now rewrite E1|].
    rewrite E2. exact Hhi.
Qed.

Lemma calculateDimensions_natural (sw sh columns : nat) (ratio : Q) :
  (0 < sw)%nat -> (0 < sh)%nat ->
  Z.of_nat sw <= MAX_SIDE -> Z.of_nat sh <= MAX_SIDE -> Z.of_nat columns <= MAX_SIDE ->
  (- 1024 <= ratio <= 1024)%Q ->
  dim_height
    (calculateDimensions (JS.ofnat sw) (JS.ofnat sh) (JS.ofnat columns) true (Fin ratio))
  = JS.ofZ (roundedRowCount sw sh columns ratio).
Proof.
  intros Hsw Hsh Hswm Hshm Hcm Hratio.
  destruct (scale_fin sw sh Hsw Hsh Hswm Hshm) as [Hscale [Hlo Hhi]].
  unfold calculateDimensions. cbn [negb dim_height]. rewrite Hscale.
  unfold roundedRowCount.
  set (a := JS.rnd (inject_Z (Z.of_nat sw) / inject_Z (Z.of_nat sh))) in *.
  assert (Hapos : (0 < a)%Q).
  { apply Qlt_le_trans with (1 # 65536)%Q; [reflexivity | exact Hlo]. }
  unfold MAX_SIDE in *.
  assert (Hc : (0 <= inject_Z (Z.of_nat columns) <= 65536)%Q).
  { change 0%Q with (inject_Z 0). change 65536%Q with (inject_Z 65536).
    rewrite <- !Zle_Qle. lia. }
  set (qc := inject_Z (Z.of_nat columns)) in *.
  assert (Hq : (0 <= qc / a <= inject_Z (2 ^ 32))%Q).
  { split.
    - apply Qle_shift_div_l; [exact Hapos|]. rewrite Qmult_0_l. apply Hc.
    - apply Qle_shift_div_r; [exact Hapos|].
      apply Qle_trans with (inject_Z (2 ^ 32) * (1 # 65536))%Q.
      + apply Qle_trans with 65536%Q; [apply Hc | discriminate].
      + apply Qmult_le_l; [reflexivity | exact Hlo]. }
  unfold JS.ofnat, JS.ofZ at 1, JS.div. fold qc.
  rewrite Qeq_bool_false by (intros E; rewrite E in Hapos; discriminate).
  destruct (round64_between (qc / a) 0 (2 ^ 32)) as [-> [Hc0 Hc1]]; try lia;
    try apply Hq.
  set (c := JS.rnd (qc / a)) in *. cbn [JS.mul].
  change (inject_Z 0) with 0%Q in Hc0.
  assert (Hp : (inject_Z (- 2 ^ 52) <= c * ratio <= inject_Z (2 ^ 52))%Q).
  { assert (Hb : (c * 1024 <= inject_Z (2 ^ 52))%Q).
    { apply Qle_trans with (inject_Z (2 ^ 32) * 1024)%Q; [|discriminate].
      apply Qmult_le_compat_r; [exact Hc1 | discriminate]. }
    assert (H1 : (c * ratio <= c * 1024)%Q)
      by (apply Qmult_le_nonneg_l; [exact Hc0 | apply Hratio]).
    assert (H2 : (c * (- 1024) <= c * ratio)%Q)
      by (apply Qmult_le_nonneg_l; [exact Hc0 | apply Hratio]).
    rewrite inject_Z_opp. split; lra. }
  destruct (round64_between (c * ratio) (- 2 ^ 52) (2 ^ 52)) as [-> _]; try lia;
    try apply Hp.
  reflexivity.
Qed.

(** C6, as stated, fails in binary64: for an 800x580 image at 80 columns
    and cell ratio [0.5] the quotient [800 / 580] rounds up, [80] divided
    by it is below [58], and the row count is [28] where
    [floor((80 / (800 / 580)) * 0.5)] is [29]; likewise [14] and not [15]
    for a 7x3 image at 70 columns. *)
Lemma row_count_rounds_down :
  claimedRowCount 800 580 80 true (1 # 2) = 29 /\
  dim_height
    (calculateDimensions (JS.ofZ 800) (JS.ofZ 580) (JS.ofZ 80) true (lit 5 10))
    = JS.ofZ 28 /\
  claimedRowCount 7 3 70 true (1 # 2) = 15 /\
  dim_height (calculateDimensions (JS.ofZ 7) (JS.ofZ 3) (JS.ofZ 70) true (lit 5 10))
    = JS.ofZ 14.
Proof. repeat split; vm_compute; reflexivity. Qed.

(** C6, amended.  [calculateDimensions] keeps the target column count.
    Without aspect preservation the row count is [floor(columns * 0.5)],
    which is exact.  With it, for positive source sides and a column count
    of at most 65536 and a cell ratio of at most 1024 in magnitude, the
    row count is the floor of [(columns / (w / h)) * charAspectRatio]
    computed in binary64, each of the three operations rounded, which can
    be one less than the floor of the exact value.  On
    [(200, 100, 80, true, 0.5)] the height is [20]. *)
Theorem calculateDimensions_height :
  (forall (originalWidth originalHeight targetWidth : num) (maintainAspectRatio : bool)
          (charAspectRatio : num),
      dim_width (calculateDimensions originalWidth originalHeight targetWidth
                   maintainAspectRatio charAspectRatio) = targetWidth) /\
  (forall (originalWidth originalHeight charAspectRatio : num) (sw sh columns : nat)
          (ratio : Q),
      Z.of_nat columns <= 2 ^ 52 ->
      dim_height (calculateDimensions originalWidth originalHeight (JS.ofnat columns)
                    false charAspectRatio)
      = JS.ofZ (claimedRowCount sw sh columns false ratio)) /\
  (forall (sw sh columns : nat) (ratio : Q),
      (0 < sw)%nat -> (0 < sh)%nat ->
      Z.of_nat sw <= MAX_SIDE -> Z.of_nat sh <= MAX_SIDE ->
      Z.of_nat columns <= MAX_SIDE -> (- 1024 <= ratio <= 1024)%Q ->
      dim_height
        (calculateDimensions (JS.ofnat sw) (JS.ofnat sh) (JS.ofnat columns) true (Fin ratio))
      = JS.ofZ (roundedRowCount sw sh columns ratio)) /\
  dim_height (calculateDimensions (JS.ofZ 200) (JS.ofZ 100) (JS.ofZ 80) true (lit 5 10))
    = JS.ofZ 20.
Proof.
  split; [|split; [|split]].
  - intros. unfold calculateDimensions. now destruct maintainAspectRatio.
  - intros ow oh car sw sh columns ratio Hmax. unfold calculateDimensions.
    cbn [negb dim_height].
    rewrite half_floor by exact Hmax. unfold claimedRowCount, JS.ofnat. f_equal.
    rewrite Nat2Z.inj_div, Zdiv_Qdiv. apply Qfloor_comp. reflexivity.
  - intros. now apply calculateDimensions_natural.
  - vm_compute. reflexivity.
Qed.

Lemma calculateDimensions_height_witness :
  dim_height (calculateDimensions (JS.ofnat 800) (JS.ofnat 580) (JS.ofnat 80) true
                (Fin (1 # 2))) = JS.ofZ 28 /\
  dim_height (calculateDimensions (JS.ofnat 800) (JS.ofnat 580) (JS.ofnat 80) false
                (Fin (1 # 2))) = JS.ofZ 40.
Proof.
  destruct calculateDimensions_height as (_ & Hoff & Hon & _). split.
  - rewrite (Hon 800 580 80 (1 # 2))%nat; try (vm_compute; (lia || discriminate)).
    + vm_compute. reflexivity.
    + split; discriminate.
  - rewrite (Hoff (JS.ofnat 800) (JS.ofnat 580) (Fin (1 # 2)) 800%nat 580%nat 80%nat (1 # 2))
      by (vm_compute; discriminate).
    vm_compute. reflexivity.
Defined.

(** ** The error of a rounding *)

Lemma roundHalfEven_near (x : Q) :
  (x - (1 # 2) <= inject_Z (JS.roundHalfEven x) <= x + (1 # 2))%Q.
Proof.
  pose proof (Qfloor_le x) as Hf. pose proof (Qlt_floor x) as Hc.
  rewrite inject_Z_plus in Hc. change (inject_Z 1) with 1%Q in Hc.
  unfold JS.roundHalfEven.
  destruct (Qcompare_spec (x - inject_Z (Qfloor x)) (1 # 2)) as [E|E|E].
  - destruct (Z.even _); [|rewrite inject_Z_plus; change (inject_Z 1) with 1%Q];
      split; lra.
  - split; lra.
  - rewrite inject_Z_plus. change (inject_Z 1) with 1%Q. split; lra.
Qed.

(** The relative error of a rounding in the normal range is at most
    [2^-53]. *)
Lemma rnd_error (q : Q) :
  (2 ^ (-1022) <= q)%Q ->
  (q - q * (1 # 9007199254740992) <= JS.rnd q <= q + q * (1 # 9007199254740992))%Q.
Proof.
  intros Hq. unfold JS.rnd.
  pose proof (Qred_correct q) as Eq. set (q' := Qred q) in *. rewrite <- Eq in *.
  pose proof (pow2_pos (-1022)) as Hpos.
  assert (Hq' : ~ (q' == 0)%Q) by (intros E; rewrite E in Hq; lra).
  rewrite Qeq_bool_false by exact Hq'.
  destruct (ilog2_spec q' Hq') as [Hlow Hhigh].
  rewrite Qabs_pos in Hlow, Hhigh by lra.
  assert (He : JS.ulpExp q' = JS.ilog2 q' - 52).
  { assert (- 1022 < JS.ilog2 q' + 1) by (apply pow2_lt_inv; lra).
    unfold JS.ulpExp. lia. }
  rewrite He. set (e := JS.ilog2 q' - 52).
  rewrite Qred_correct.
  pose proof (roundHalfEven_near (q' / 2 ^ e)) as [H1 H2].
  pose proof (pow2_pos e) as Hpe.
  assert (Hulp : (2 ^ e <= q' * (1 # 4503599627370496))%Q).
  { assert (E : (2 ^ e == 2 ^ JS.ilog2 q' * (1 # 4503599627370496))%Q).
    { unfold e. replace (JS.ilog2 q' - 52) with (JS.ilog2 q' + - 52) by lia.
      rewrite pow2_add. reflexivity. }
    rewrite E. apply Qmult_le_compat_r; [exact Hlow | discriminate]. }
  assert (Hq2 : (q' / 2 ^ e * 2 ^ e == q')%Q).
  { unfold Qdiv. rewrite <- Qmult_assoc, (Qmult_comm (/ 2 ^ e)), Qmult_inv_r by lra.
    apply Qmult_1_r. }
  set (m := inject_Z (JS.roundHalfEven (q' / 2 ^ e))) in *.
  assert (Hm1 : ((q' / 2 ^ e - (1 # 2)) * 2 ^ e <= m * 2 ^ e)%Q)
    by (apply Qmult_le_compat_r; [exact H1 | lra]).
  assert (Hm2 : (m * 2 ^ e <= (q' / 2 ^ e + (1 # 2)) * 2 ^ e)%Q)
    by (apply Qmult_le_compat_r; [exact H2 | lra]).
  assert (E1 : ((q' / 2 ^ e - (1 # 2)) * 2 ^ e == q' - (1 # 2) * 2 ^ e)%Q)
    by (rewrite <- Hq2 at 2; ring).
  assert (E2 : ((q' / 2 ^ e + (1 # 2)) * 2 ^ e == q' + (1 # 2) * 2 ^ e)%Q)
    by (rewrite <- Hq2 at 2; ring).
  rewrite E1 in Hm1. rewrite E2 in Hm2.
  split; lra.
Qed.

(** ** C5 *)

Lemma Qfloor_eq (p : Q) (n : Z) :
  (inject_Z n <= p)%Q -> (p < inject_Z (n + 1))%Q -> Qfloor p = n.
Proof.
  intros H1 H2. apply Qfloor_resp_le in H1. rewrite Qfloor_Z in H1.
  assert (H3 : (inject_Z (Qfloor p) < inject_Z (n + 1))%Q)
    by (apply Qle_lt_trans with p; [apply Qfloor_le | exact H2]).
  rewrite <- Zlt_Qlt in H3. lia.
Qed.

Lemma inject_nat_range (n : nat) (b : Z) :
  Z.of_nat n <= b -> (0 <= inject_Z (Z.of_nat n) <= inject_Z b)%Q.
Proof.
  intros H. split; [apply inject_Z_nonneg; lia | now rewrite <- Zle_Qle].
Qed.

(** The source coordinate is a natural number no larger than [x * s]. *)
Lemma scaled_floor (x s t : nat) :
  (0 < t)%nat -> Z.of_nat s <= MAX_SIDE -> Z.of_nat x <= MAX_SIDE ->
  JS.floor (JS.mul (JS.ofnat x) (JS.div (JS.ofnat s) (JS.ofnat t)))
    = JS.ofnat (roundedSource x s t) /\
  (roundedSource x s t <= x * s)%nat.
Proof.
  unfold MAX_SIDE. intros Ht Hs Hx.
  destruct (inject_nat_range s 65536 Hs) as [Hs0 Hs1].
  destruct (inject_nat_range x 65536 Hx) as [Hx0 Hx1].
  assert (Ht1 : (1 <= inject_Z (Z.of_nat t))%Q).
  { change 1%Q with (inject_Z 1). rewrite <- Zle_Qle. lia. }
  unfold roundedSource.
  set (qs := inject_Z (Z.of_nat s)) in *. set (qt := inject_Z (Z.of_nat t)) in *.
  set (qx := inject_Z (Z.of_nat x)) in *.
  assert (Hu : (inject_Z 0 <= qs / qt <= inject_Z (Z.of_nat s))%Q).
  { fold qs. change (inject_Z 0) with 0%Q. split.
    - apply Qle_shift_div_l; [lra|]. lra.
    - apply Qle_shift_div_r; [lra|].
      assert (H : (qs * 1 <= qs * qt)%Q) by (apply Qmult_le_nonneg_l; assumption). lra. }
  destruct (round64_between (qs / qt) 0 (Z.of_nat s)) as [Ea [Ha0 Ha1]]; try lia;
    try apply Hu.
  set (a := JS.rnd (qs / qt)) in *. change (inject_Z 0) with 0%Q in Ha0. fold qs in Ha1.
  assert (Hp : (inject_Z 0 <= qx * a <= inject_Z (Z.of_nat x * Z.of_nat s))%Q).
  { change (inject_Z 0) with 0%Q. rewrite inject_Z_mult. fold qx qs. split.
    - now apply Qmult_le_0_compat.
    - now apply Qmult_le_nonneg_l. }
  destruct (round64_between (qx * a) 0 (Z.of_nat x * Z.of_nat s)) as [Ep [Hp0 Hp1]];
    try nia; try apply Hp.
  apply Qfloor_resp_le in Hp0, Hp1. rewrite Qfloor_Z in Hp0, Hp1.
  split.
  - unfold JS.ofnat at 1 2 3, JS.ofZ, JS.div. rewrite (ofnat_nonzero t Ht).
    fold qs qt qx. rewrite Ea. cbn [JS.mul]. rewrite Ep. cbn [JS.floor].
    unfold JS.ofnat, JS.ofZ. now rewrite Z2Nat.id.
  - lia.
Qed.

(** On integers [x < t] and [s], the source coordinate computed in binary64
    is [floor(x * s / t)], or the coordinate before it when [x * s / t] is
    an integer. *)
Lemma roundedSource_near (x s t : nat) :
  (x < t)%nat -> (0 < s)%nat -> Z.of_nat s <= MAX_SIDE -> Z.of_nat t <= MAX_SIDE ->
  roundedSource x s t = claimedSource x s t \/
  (((x * s) mod t = 0)%nat /\ S (roundedSource x s t) = claimedSource x s t).
Proof.
  intros Hx Hs Hsmax Htmax. unfold claimedSource.
  destruct (Nat.eq_dec x 0%nat) as [->|Hx0].
  { left. unfold roundedSource. cbn [Z.of_nat Nat.mul Nat.div].
    rewrite (rnd_comp _ 0) by apply Qmult_0_l. rewrite Nat.Div0.div_0_l. reflexivity. }
  destruct (scale_fin s t Hs ltac:(lia) Hsmax Htmax) as [_ [Halo Hahi]].
  unfold MAX_SIDE in *.
  destruct (inject_nat_range s 65536 Hsmax) as [_ Hs1].
  destruct (inject_nat_range t 65536 Htmax) as [_ Ht1].
  change (inject_Z 65536) with 65536%Q in Hs1, Ht1.
  assert (Hs0 : (1 <= inject_Z (Z.of_nat s))%Q).
  { change 1%Q with (inject_Z 1). rewrite <- Zle_Qle. lia. }
  assert (Hx1 : (1 <= inject_Z (Z.of_nat x))%Q).
  { change 1%Q with (inject_Z 1). rewrite <- Zle_Qle. lia. }
  assert (Hxt : (inject_Z (Z.of_nat x) + 1 <= inject_Z (Z.of_nat t))%Q).
  { change 1%Q with (inject_Z 1). rewrite <- inject_Z_plus, <- Zle_Qle. lia. }
  pose proof (Nat.div_mod_eq (x * s) t) as Hdiv.
  pose proof (Nat.mod_upper_bound (x * s) t ltac:(lia)) as Hmod.
  set (n := (x * s / t)%nat) in *. set (r := ((x * s) mod t)%nat) in *.
  assert (Hdiv' : (inject_Z (Z.of_nat x) * inject_Z (Z.of_nat s)
                   == inject_Z (Z.of_nat t) * inject_Z (Z.of_nat n)
                      + inject_Z (Z.of_nat r))%Q).
  { rewrite <- !inject_Z_mult, <- inject_Z_plus. apply inject_Z_injective. lia. }
  assert (Hr0 : (0 <= inject_Z (Z.of_nat r))%Q) by (apply inject_Z_nonneg; lia).
  assert (Hrt : (inject_Z (Z.of_nat r) + 1 <= inject_Z (Z.of_nat t))%Q).
  { change 1%Q with (inject_Z 1). rewrite <- inject_Z_plus, <- Zle_Qle. lia. }
  assert (Hn0 : (0 <= inject_Z (Z.of_nat n))%Q) by (apply inject_Z_nonneg; lia).
  unfold roundedSource.
  set (qs := inject_Z (Z.of_nat s)) in *. set (qt := inject_Z (Z.of_nat t)) in *.
  set (qx := inject_Z (Z.of_nat x)) in *. set (qn := inject_Z (Z.of_nat n)) in *.
  set (qr := inject_Z (Z.of_nat r)) in *.
  set (u := (qs / qt)%Q) in *. set (a := JS.rnd u) in *.
  assert (Hqt : ~ (qt == 0)%Q) by (intros E; rewrite E in Hxt; lra).
  (* the exact value [x * s / t] is [n] plus the fraction [r / t] *)
  assert (Hexact : (qx * u == qn + qr / qt)%Q).
  { unfold u. apply (Qmult_inj_r _ _ qt Hqt).
    assert (E1 : (qx * (qs / qt) * qt == qx * qs)%Q) by (field; exact Hqt).
    assert (E2 : ((qn + qr / qt) * qt == qt * qn + qr)%Q) by (field; exact Hqt).
    now rewrite E1, E2. }
  assert (Hu : (1 # 65536 <= u <= 65536)%Q).
  { unfold u. split.
    - apply Qle_shift_div_l; [lra|]. lra.
    - apply Qle_shift_div_r; [lra|]. lra. }
  assert (HE : (qx * u <= 65536)%Q).
  { apply Qle_trans with qs; [|exact Hs1]. unfold u.
    assert (E : (qx * (qs / qt) == qx * qs / qt)%Q) by (field; exact Hqt).
    rewrite E. apply Qle_shift_div_r; [lra|].
    rewrite (Qmult_comm qs qt). apply Qmult_le_compat_r; lra. }
  (* the two roundings *)
  assert (Hbig : (2 ^ (-1022) <= 1 # 65536)%Q) by discriminate.
  destruct (rnd_error u ltac:(lra)) as [Ha1 Ha2]. fold a in Ha1, Ha2.
  assert (Hxa1 : (qx * (u - u * (1 # 9007199254740992)) <= qx * a)%Q)
    by (apply Qmult_le_nonneg_l; lra).
  assert (Hxa2 : (qx * a <= qx * (u + u * (1 # 9007199254740992)))%Q)
    by (apply Qmult_le_nonneg_l; lra).
  assert (Eu1 : (qx * (u - u * (1 # 9007199254740992))
                 == qx * u - qx * u * (1 # 9007199254740992))%Q) by ring.
  assert (Eu2 : (qx * (u + u * (1 # 9007199254740992))
                 == qx * u + qx * u * (1 # 9007199254740992))%Q) by ring.
  rewrite Eu1 in Hxa1. rewrite Eu2 in Hxa2.
  assert (Hxa0 : (1 # 65536 <= qx * a)%Q).
  { apply Qle_trans with (1 * a)%Q; [lra|]. apply Qmult_le_compat_r; lra. }
  destruct (rnd_error (qx * a) ltac:(lra)) as [Hp1 Hp2].
  set (p := JS.rnd (qx * a)) in *. set (w := (qx * a)%Q) in *. set (E := (qx * u)%Q) in *.
  assert (Hnear : (E - (1 # 1048576) <= p <= E + (1 # 1048576))%Q) by (split; lra).
  assert (HEn : (0 <= E)%Q) by (unfold E; apply Qmult_le_0_compat; lra).
  destruct (Nat.eq_dec r 0%nat) as [Hr|Hr].
  - (* an exact quotient: [n] or the integer before it *)
    assert (Hfr : (qr / qt == 0)%Q).
    { unfold qr. rewrite Hr. unfold Qdiv. apply Qmult_0_l. }
    rewrite Hfr, Qplus_0_r in Hexact.
    destruct (Qlt_le_dec p qn) as [Hlt|Hge].
    + right. split; [exact Hr|].
      assert (Hn1 : (1 <= n)%nat).
      { destruct (Nat.eq_dec n 0%nat) as [En|]; [|lia]. exfalso.
        assert (H0 : (0 <= p)%Q)
          by (apply rnd_nonneg; unfold w; apply Qmult_le_0_compat; lra).
        assert (Eq0 : (qn == 0)%Q) by (unfold qn; rewrite En; reflexivity).
        lra. }
      assert (Ef : Qfloor p = Z.of_nat n - 1).
      { apply Qfloor_eq.
        - unfold Z.sub. rewrite inject_Z_plus, inject_Z_opp. fold qn.
          change (inject_Z 1) with 1%Q. lra.
        - replace (Z.of_nat n - 1 + 1) with (Z.of_nat n) by lia. exact Hlt. }
      rewrite Ef. lia.
    + left.
      assert (Ef : Qfloor p = Z.of_nat n).
      { apply Qfloor_eq; [exact Hge|]. rewrite inject_Z_plus. fold qn.
        change (inject_Z 1) with 1%Q. lra. }
      rewrite Ef. lia.
  - (* a fraction of at least [1 / t] on either side of [x * s / t] *)
    left.
    assert (Hr1 : (1 <= qr)%Q).
    { change 1%Q with (inject_Z 1). unfold qr. rewrite <- Zle_Qle. lia. }
    assert (Hf1 : (1 # 65536 <= qr / qt)%Q).
    { apply Qle_shift_div_l; [lra|]. lra. }
    assert (Hf2 : (qr / qt <= 1 - (1 # 65536))%Q).
    { apply Qle_shift_div_r; [lra|]. lra. }
    assert (Ef : Qfloor p = Z.of_nat n).
    { apply Qfloor_eq; [fold qn; lra|]. rewrite inject_Z_plus. fold qn.
      change (inject_Z 1) with 1%Q. lra. }
    rewrite Ef. lia.
Qed.

(** The source coordinate lies inside the source. *)
Lemma roundedSource_lt (x s t : nat) :
  (x < t)%nat -> (0 < s)%nat -> Z.of_nat s <= MAX_SIDE -> Z.of_nat t <= MAX_SIDE ->
  (roundedSource x s t < s)%nat.
Proof.
  intros Hx Hs Hsmax Htmax.
  assert (Hc : (claimedSource x s t < s)%nat).
  { unfold claimedSource. apply Nat.Div0.div_lt_upper_bound. nia. }
  destruct (roundedSource_near x s t Hx Hs Hsmax Htmax) as [->|[_ H]]; lia.
Qed.

(** Resampling to the same number of pixels keeps every coordinate. *)
Lemma roundedSource_same (x s : nat) :
  (0 < s)%nat -> Z.of_nat x <= 2 ^ 52 -> roundedSource x s s = x.
Proof.
  intros Hs Hx. unfold roundedSource.
  assert (Hqs : ~ (inject_Z (Z.of_nat s) == 0)%Q).
  { intros E. change 0%Q with (inject_Z 0) in E.
    apply (proj1 (inject_Z_injective _ _)) in E. lia. }
  rewrite (rnd_Z (inject_Z (Z.of_nat s) / inject_Z (Z.of_nat s)) 1);
    [|lia | now apply Qmult_inv_r].
  rewrite (rnd_Z _ (Z.of_nat x)); [|lia | apply Qmult_1_r].
  rewrite Qfloor_Z. apply Nat2Z.id.
Qed.

(** ** Loops that rewrite one pixel per turn *)

Lemma pixel_coords (w x y : nat) :
  (x < w)%nat -> ((y * w + x) / w = y /\ (y * w + x) mod w = x)%nat.
Proof.
  intros Hx. split; symmetry.
  - apply (Nat.div_unique _ _ y x); lia.
  - apply (Nat.mod_unique _ _ y x); lia.
Qed.

Lemma pixel_of_index (p c : nat) : (c < 4)%nat -> ((p * 4 + c) / 4 = p)%nat.
Proof. intros Hc. symmetry. apply (Nat.div_unique _ _ p c); lia. Qed.

Lemma in_pixel (i p : nat) : (i / 4 = p <-> p * 4 <= i < p * 4 + 4)%nat.
Proof.
  pose proof (Nat.div_mod_eq i 4). pose proof (Nat.mod_upper_bound i 4). lia.
Qed.

Section PixelLoop.

Variable w : nat.
Variable body : list Z -> nat -> nat -> list Z.

(** The turn at [(x, y)] leaves the other pixels alone, and what it
    leaves in its own pixel depends on that pixel only. *)
Hypothesis body_frame : forall d y x i,
  (i / 4 <> y * w + x)%nat -> body d y x !! i = d !! i.
Hypothesis body_local : forall d d' y x,
  (forall j, (j / 4 = y * w + x)%nat -> d !! j = d' !! j) ->
  forall i, (i / 4 = y * w + x)%nat -> body d y x !! i = body d' y x !! i.

Lemma rowLoop_lookup (n : nat) (d : list Z) (y i : nat) :
  rowLoop body n d y !! i =
  if decide (y * w <= i / 4 < y * w + n)%nat
  then body d y (i / 4 - y * w) !! i
  else d !! i.
Proof.
  induction n as [|n IH] in i |- *.
  - cbn. case_decide; [lia | reflexivity].
  - unfold rowLoop in *. rewrite seq_S, foldl_app. cbn [foldl plus].
    destruct (decide (i / 4 = y * w + n)%nat) as [Hi|Hi].
    + rewrite decide_True by lia.
      replace (i / 4 - y * w)%nat with n by lia.
      apply body_local; [|exact Hi].
      intros j Hj. rewrite IH. now rewrite decide_False by lia.
    + rewrite body_frame by exact Hi. rewrite IH.
      repeat case_decide; try lia; reflexivity.
Qed.

Lemma pixelLoop_lookup (h : nat) (d : list Z) (i : nat) :
  pixelLoop w body h d !! i =
  if decide (i / 4 < h * w)%nat
  then body d (i / 4 / w) ((i / 4) mod w) !! i
  else d !! i.
Proof.
  induction h as [|h IH] in i |- *.
  - cbn. reflexivity.
  - unfold pixelLoop in *. rewrite seq_S, foldl_app. cbn [foldl plus].
    fold (rowLoop body w (foldl (fun nd y => foldl (fun nd x => body nd y x) nd (seq 0 w))
                           d (seq 0 h)) h).
    rewrite rowLoop_lookup.
    destruct (decide (h * w <= i / 4 < h * w + w)%nat) as [Hi|Hi].
    + rewrite decide_True by lia.
      destruct (pixel_coords w (i / 4 - h * w) h ltac:(lia)) as [Hq Hr].
      replace (h * w + (i / 4 - h * w))%nat with (i / 4)%nat in * by lia.
      rewrite Hq, Hr.
      apply body_local; [|lia].
      intros j Hj. rewrite IH. now rewrite decide_False by lia.
    + rewrite IH. repeat case_decide; try lia; reflexivity.
Qed.

(** At a pixel of the grid the loop leaves what its own turn leaves. *)
Lemma pixelLoop_at (h : nat) (d : list Z) (x y c : nat) :
  (x < w)%nat -> (y < h)%nat -> (c < 4)%nat ->
  pixelLoop w body h d !! ((y * w + x) * 4 + c)%nat = body d y x !! ((y * w + x) * 4 + c)%nat.
Proof.
  intros Hx Hy Hc. rewrite pixelLoop_lookup.
  rewrite (pixel_of_index (y * w + x) c Hc).
  destruct (pixel_coords w x y Hx) as [-> ->].
  rewrite decide_True by nia. reflexivity.
Qed.

End PixelLoop.

Lemma store_lookup (d : list Z) (i j : nat) (v : num) :
  store d i v !! j =
  if decide (i = j)
  then match d !! j with Some _ => Some (JS.toUint8Clamp v) | None => None end
  else d !! j.
Proof.
  unfold store. rewrite list_lookup_insert.
  destruct (decide (i = j)) as [->|Hne].
  - destruct (d !! j) eqn:E.
    + apply lookup_lt_Some in E. now rewrite decide_True by (split; [reflexivity | lia]).
    + apply lookup_ge_None in E. now rewrite decide_False by lia.
  - now rewrite decide_False by tauto.
Qed.

Lemma load_store_ne (d : list Z) (i j : nat) (v : num) :
  i <> j -> load (store d i v) j = load d j.
Proof. intros Hne. unfold load. rewrite store_lookup. now rewrite decide_False. Qed.

Lemma foldl_length {B : Type} (f : list Z -> B -> list Z) (l : list B) (d : list Z) :
  (forall d b, length (f d b) = length d) -> length (foldl f d l) = length d.
Proof.
  intros Hf. induction l as [|b l IH] in d |- *; [reflexivity|].
  cbn [foldl]. now rewrite IH, Hf.
Qed.

(** ** C5, continued *)

Lemma toIndex_sourceIndex (sy sw sx : nat) (k : Z) :
  0 <= k -> (Z.of_nat sy * Z.of_nat sw + Z.of_nat sx) * 4 + k <= 2 ^ 52 ->
  JS.toIndex
    (JS.add (JS.mul (JS.add (JS.mul (JS.ofnat sy) (JS.ofnat sw)) (JS.ofnat sx)) (JS.ofZ 4))
            (JS.ofZ k))
  = Some ((sy * sw + sx) * 4 + Z.to_nat k)%nat.
Proof.
  intros Hk Hmax. unfold JS.ofnat.
  rewrite mul_ofZ, add_ofZ, mul_ofZ, add_ofZ by nia.
  rewrite toIndex_ofZ by nia. f_equal. lia.
Qed.

Lemma toIndex_sourceIndex0 (sy sw sx : nat) :
  (Z.of_nat sy * Z.of_nat sw + Z.of_nat sx) * 4 <= 2 ^ 52 ->
  JS.toIndex (JS.mul (JS.add (JS.mul (JS.ofnat sy) (JS.ofnat sw)) (JS.ofnat sx)) (JS.ofZ 4))
  = Some ((sy * sw + sx) * 4)%nat.
Proof.
  intros Hmax. unfold JS.ofnat.
  rewrite mul_ofZ, add_ofZ, mul_ofZ by nia.
  rewrite toIndex_ofZ by nia. f_equal. lia.
Qed.

(** A turn of the resampler writes its own target pixel, whatever the
    scales are. *)
Lemma resizePixel_shape (imageData : ImageData) (tw : nat) (scaleX scaleY : num)
    (y x : nat) :
  exists f : nat -> Z, forall (nd : list Z) (i : nat),
    resizePixel imageData tw scaleX scaleY nd y x !! i
    = if decide ((y * tw + x) * 4 <= i < (y * tw + x) * 4 + 4)%nat
      then match nd !! i with Some _ => Some (f i) | None => None end
      else nd !! i.
Proof.
  set (t := ((y * tw + x) * 4)%nat).
  set (sourceIndex :=
         JS.mul (JS.add (JS.mul (JS.floor (JS.mul (JS.ofnat y) scaleY))
                                (JS.ofnat (width imageData)))
                        (JS.floor (JS.mul (JS.ofnat x) scaleX))) (JS.ofZ 4)).
  exists (fun i =>
            JS.toUint8Clamp
              (loadAt (data imageData)
                 (if (i =? t)%nat then sourceIndex
                  else JS.add sourceIndex (JS.ofZ (Z.of_nat (i - t)))))).
  intros nd i. unfold resizePixel. fold t sourceIndex.
  rewrite !store_lookup.
  repeat case_decide; try lia; subst;
    repeat match goal with
    | |- context [(?a + ?k - ?a)%nat] => replace (a + k - a)%nat with k by lia
    | |- context [(?a + ?k =? ?a)%nat] =>
        replace (a + k =? a)%nat with false by (symmetry; apply Nat.eqb_neq; lia)
    end; rewrite ?Nat.eqb_refl; try reflexivity.
Qed.

Lemma resizePixel_frame (imageData : ImageData) (tw : nat) (scaleX scaleY : num)
    (nd : list Z) (y x i : nat) :
  (i / 4 <> y * tw + x)%nat ->
  resizePixel imageData tw scaleX scaleY nd y x !! i = nd !! i.
Proof.
  intros Hi. destruct (resizePixel_shape imageData tw scaleX scaleY y x) as [f Hf].
  rewrite Hf. pose proof (in_pixel i (y * tw + x)). now rewrite decide_False by lia.
Qed.

Lemma resizePixel_local (imageData : ImageData) (tw : nat) (scaleX scaleY : num)
    (nd nd' : list Z) (y x : nat) :
  (forall j, (j / 4 = y * tw + x)%nat -> nd !! j = nd' !! j) ->
  forall i, (i / 4 = y * tw + x)%nat ->
    resizePixel imageData tw scaleX scaleY nd y x !! i
    = resizePixel imageData tw scaleX scaleY nd' y x !! i.
Proof.
  intros Hagree i Hi.
  destruct (resizePixel_shape imageData tw scaleX scaleY y x) as [f Hf].
  now rewrite !Hf, (Hagree i Hi).
Qed.

Lemma resizePixel_lookup (imageData : ImageData) (tw th : nat) (nd : list Z)
    (y x i : nat) :
  (x < tw)%nat -> (y < th)%nat ->
  Z.of_nat (width imageData) <= MAX_SIDE -> Z.of_nat (height imageData) <= MAX_SIDE ->
  Z.of_nat tw <= MAX_SIDE -> Z.of_nat th <= MAX_SIDE ->
  resizePixel imageData tw
    (JS.div (JS.ofnat (width imageData)) (JS.ofnat tw))
    (JS.div (JS.ofnat (height imageData)) (JS.ofnat th)) nd y x !! i
  = if decide ((y * tw + x) * 4 <= i < (y * tw + x) * 4 + 4)%nat
    then match nd !! i with
         | Some _ =>
             Some (copied (data imageData)
                     ((roundedSource y (height imageData) th * width imageData
                       + roundedSource x (width imageData) tw) * 4
                      + (i - (y * tw + x) * 4)))
         | None => None
         end
    else nd !! i.
Proof.
  intros Hx Hy Hsw Hsh Htw Hth. unfold resizePixel.
  destruct (scaled_floor x (width imageData) tw) as [-> Hsx]; [lia | lia | lia |].
  destruct (scaled_floor y (height imageData) th) as [-> Hsy]; [lia | lia | lia |].
  unfold MAX_SIDE in *.
  set (sy := roundedSource y (height imageData) th) in *.
  set (sx := roundedSource x (width imageData) tw) in *.
  set (t := ((y * tw + x) * 4)%nat).
  assert (Hbound : (Z.of_nat sy * Z.of_nat (width imageData) + Z.of_nat sx) * 4 + 3
                   <= 2 ^ 52) by nia.
  unfold loadAt.
  rewrite toIndex_sourceIndex0, !toIndex_sourceIndex by lia.
  change (Z.to_nat 1) with 1%nat. change (Z.to_nat 2) with 2%nat.
  change (Z.to_nat 3) with 3%nat.
  set (s := ((sy * width imageData + sx) * 4)%nat).
  rewrite !store_lookup. unfold copied.
  repeat case_decide; try lia; subst;
    repeat match goal with
    | |- context [(?a + ?k - ?a)%nat] => replace (a + k - a)%nat with k by lia
    | |- context [(?a - ?a)%nat] => replace (a - a)%nat with 0%nat by lia
    end; rewrite ?Nat.add_0_r; try reflexivity.
Qed.

Lemma resizePixel_length (imageData : ImageData) (tw : nat) (sx sy : num)
    (nd : list Z) (y x : nat) :
  length (resizePixel imageData tw sx sy nd y x) = length nd.
Proof. unfold resizePixel, store. now rewrite !length_insert. Qed.

Lemma resizeImageData_length (imageData : ImageData) (tw th : nat) :
  length (data (resizeImageData imageData tw th)) = (tw * th * 4)%nat.
Proof.
  unfold resizeImageData. cbn [data].
  rewrite foldl_length.
  - apply length_replicate.
  - intros d y. apply foldl_length. intros d' x. apply resizePixel_length.
Qed.

Lemma resizeImageData_at (imageData : ImageData) (tw th x y c : nat) :
  (x < tw)%nat -> (y < th)%nat -> (c < 4)%nat ->
  Z.of_nat (width imageData) <= MAX_SIDE -> Z.of_nat (height imageData) <= MAX_SIDE ->
  Z.of_nat tw <= MAX_SIDE -> Z.of_nat th <= MAX_SIDE ->
  data (resizeImageData imageData tw th) !! ((y * tw + x) * 4 + c)%nat
  = Some (copied (data imageData)
            ((roundedSource y (height imageData) th * width imageData
              + roundedSource x (width imageData) tw) * 4 + c)).
Proof.
  intros Hx Hy Hc Hsw Hsh Htw Hth.
  change (data (resizeImageData imageData tw th))
    with (pixelLoop tw
            (resizePixel imageData tw
               (JS.div (JS.ofnat (width imageData)) (JS.ofnat tw))
               (JS.div (JS.ofnat (height imageData)) (JS.ofnat th)))
            th (zeros (tw * th * 4))).
  rewrite pixelLoop_at; try lia.
  - rewrite resizePixel_lookup, decide_True by lia.
    unfold zeros. rewrite lookup_replicate_2 by nia.
    do 2 f_equal. lia.
  - intros. now apply resizePixel_frame.
  - intros. now apply resizePixel_local.
Qed.

Lemma copied_byte (source : list Z) (i : nat) (v : Z) :
  Forall byte source -> source !! i = Some v -> copied source i = v.
Proof.
  intros Hbytes Hv. unfold copied, load. rewrite Hv.
  apply toUint8Clamp_byte. rewrite Forall_lookup in Hbytes. exact (Hbytes i v Hv).
Qed.

(** C5, as stated, fails in binary64: when 30 source pixels are resampled
    to 22, target pixel 11 does not copy source pixel
    [floor(11 * 30 / 22) = 15]; the scale [30 / 22] rounds down, its
    product with [11] is below [15], and the pixel copied is 14. *)
Lemma resample_reads_pixel_before :
  claimedSource 11 30 22 = 15%nat /\
  data gradient30 !! (15 * 4)%nat = Some 15 /\
  data (resizeImageData gradient30 22 1) !! (11 * 4)%nat = Some 14 /\
  data gradient30 !! (14 * 4)%nat = Some 14.
Proof. repeat split; vm_compute; reflexivity. Qed.

(** C5, amended.  For a well-formed source and target sizes [w], [h], all
    sides at most 65536, the resampled buffer has width [w], height [h] and
    [w * h * 4] elements.  Channel [c] of target pixel [(x, y)] holds
    channel [c] of the source pixel [(sx, sy)], where [sx] is the floor of
    [x * (sw / w)] computed in binary64, the quotient and the product each
    rounded, and [sy] likewise; this pixel lies inside the source, and
    [sx] is [floor(x * sw / w)] except that it can be one less when
    [x * sw / w] is an integer.  Resampling to the source's own size gives
    the source back. *)
Theorem resizeImageData_nearest (imageData : ImageData) (w h : nat) :
  wellFormed imageData ->
  Z.of_nat (width imageData) <= MAX_SIDE -> Z.of_nat (height imageData) <= MAX_SIDE ->
  Z.of_nat w <= MAX_SIDE -> Z.of_nat h <= MAX_SIDE ->
  let out := resizeImageData imageData w h in
  let sw := width imageData in
  let sh := height imageData in
  width out = w /\ height out = h /\ length (data out) = (w * h * 4)%nat /\
  ((0 < sw)%nat -> (0 < sh)%nat ->
   forall x y c, (x < w)%nat -> (y < h)%nat -> (c < 4)%nat ->
     let sx := roundedSource x sw w in
     let sy := roundedSource y sh h in
     (sx < sw)%nat /\ (sy < sh)%nat /\
     data out !! ((y * w + x) * 4 + c)%nat
       = data imageData !! ((sy * sw + sx) * 4 + c)%nat /\
     (sx = claimedSource x sw w \/
      ((x * sw) mod w = 0)%nat /\ S sx = claimedSource x sw w) /\
     (sy = claimedSource y sh h \/
      ((y * sh) mod h = 0)%nat /\ S sy = claimedSource y sh h)) /\
  resizeImageData imageData sw sh = imageData.
Proof.
  intros [Hlen Hbytes] Hswm Hshm Hwm Hhm out sw sh.
  split; [reflexivity|]. split; [reflexivity|].
  split; [apply resizeImageData_length|]. split.
  - intros Hsw Hsh x y c Hx Hy Hc sx sy.
    pose proof (roundedSource_lt x sw w Hx Hsw Hswm Hwm) as Hsx.
    pose proof (roundedSource_lt y sh h Hy Hsh Hshm Hhm) as Hsy.
    fold sx in Hsx. fold sy in Hsy.
    split; [exact Hsx|]. split; [exact Hsy|]. split.
    + unfold out. rewrite resizeImageData_at by assumption. fold sw sh sx sy.
      destruct (lookup_lt_is_Some_2 (data imageData) ((sy * sw + sx) * 4 + c))
        as [v Hv].
      { fold sw sh in Hlen. nia. }
      rewrite Hv. f_equal. exact (copied_byte _ _ v Hbytes Hv).
    + split; [exact (roundedSource_near x sw w Hx Hsw Hswm Hwm)
             | exact (roundedSource_near y sh h Hy Hsh Hshm Hhm)].
  - destruct imageData as [d iw ih]. cbn [width height data] in *.
    subst sw sh. cbn [width height].
    assert (Hdata : data (resizeImageData (mkImageData d iw ih) iw ih) = d).
    { apply list_eq. intros i.
      destruct (decide (i < iw * ih * 4)%nat) as [Hi|Hi].
      - assert (Hiw : (0 < iw)%nat) by lia. assert (Hih : (0 < ih)%nat) by lia.
        pose proof (Nat.div_mod_eq i 4) as Hi4.
        pose proof (Nat.mod_upper_bound i 4 ltac:(lia)) as Hc.
        pose proof (Nat.div_mod_eq (i / 4) iw) as Hp.
        pose proof (Nat.mod_upper_bound (i / 4) iw ltac:(lia)) as Hx.
        set (c := (i mod 4)%nat) in *. set (x := ((i / 4) mod iw)%nat) in *.
        set (y := (i / 4 / iw)%nat) in *.
        assert (Hy : (y < ih)%nat) by nia.
        assert (Hidx : i = ((y * iw + x) * 4 + c)%nat) by lia.
        rewrite Hidx at 1. rewrite resizeImageData_at by assumption.
        cbn [width height data]. unfold MAX_SIDE in *.
        rewrite (roundedSource_same y ih), (roundedSource_same x iw) by lia.
        rewrite <- Hidx.
        destruct (lookup_lt_is_Some_2 d i) as [v Hv]; [lia|].
        rewrite Hv. f_equal. exact (copied_byte _ _ v Hbytes Hv).
      - rewrite (proj2 (lookup_ge_None d i)) by lia.
        apply lookup_ge_None. rewrite resizeImageData_length. lia. }
    unfold resizeImageData in *. cbn [data width height] in *. now rewrite Hdata.
Qed.

Lemma checker2_wellFormed : wellFormed checker2.
Proof.
  split; [reflexivity|]. unfold checker2, byte. cbn [data].
  repeat (apply Forall_cons; split; [lia|]). apply Forall_nil_2.
Qed.

Lemma gradient30_wellFormed : wellFormed gradient30.
Proof.
  split; [reflexivity|]. apply Forall_forall. intros v Hv.
  apply list_elem_of_In in Hv. vm_compute in Hv. unfold byte.
  repeat (destruct Hv as [<-|Hv]; [lia|]). destruct Hv.
Qed.

Lemma resizeImageData_nearest_witness :
  wellFormed gradient30 /\
  roundedSource 11 30 22 = 14%nat /\
  data (resizeImageData gradient30 22 1) !! (11 * 4)%nat = data gradient30 !! (14 * 4)%nat /\
  resizeImageData checker2 2 2 = checker2.
Proof.
  split; [exact gradient30_wellFormed|]. split; [vm_compute; reflexivity|].
  assert (Hsmall : forall n : nat, (n <= 30)%nat -> Z.of_nat n <= MAX_SIDE)
    by (intros n Hn; unfold MAX_SIDE; lia).
  destruct (resizeImageData_nearest gradient30 22 1 gradient30_wellFormed
              (Hsmall 30%nat ltac:(lia)) (Hsmall 1%nat ltac:(lia))
              (Hsmall 22%nat ltac:(lia)) (Hsmall 1%nat ltac:(lia)))
    as (_ & _ & _ & Hat & _).
  destruct (resizeImageData_nearest checker2 2 2 checker2_wellFormed
              (Hsmall 2%nat ltac:(lia)) (Hsmall 2%nat ltac:(lia))
              (Hsmall 2%nat ltac:(lia)) (Hsmall 2%nat ltac:(lia)))
    as (_ & _ & _ & _ & Hid).
  split; [|exact Hid].
  destruct (Hat ltac:(cbn; lia) ltac:(cbn; lia) 11%nat 0%nat 0%nat
              ltac:(lia) ltac:(lia) ltac:(lia)) as (_ & _ & Hpix & _).
  exact Hpix.
Defined.

(** ** C4 *)

Lemma matrixAt_entry (matrix : list (list Z)) (x y : nat) :
  squareMatrix matrix ->
  matrixAt matrix (y mod length matrix) (x mod length matrix)
  = JS.ofZ (matrixEntry matrix (y mod length matrix) (x mod length matrix)).
Proof.
  intros [Hn Hrows]. unfold matrixAt, matrixEntry.
  pose proof (Nat.mod_upper_bound y (length matrix) ltac:(lia)) as Hy.
  pose proof (Nat.mod_upper_bound x (length matrix) ltac:(lia)) as Hx.
  destruct (lookup_lt_is_Some_2 matrix _ Hy) as [row Hrow].
  rewrite (nth_lookup_Some _ _ _ _ Hrow), Hrow.
  rewrite Forall_lookup in Hrows. specialize (Hrows _ _ Hrow).
  destruct (lookup_lt_is_Some_2 row (x mod length matrix)) as [v Hv]; [lia|].
  now rewrite (nth_lookup_Some _ _ _ _ Hv), Hv.
Qed.

Lemma orderedPixel_lookup (matrix : list (list Z)) (strength : num) (w : nat)
    (d : list Z) (y x i : nat) :
  squareMatrix matrix ->
  orderedPixel matrix strength w d y x !! i =
  if decide ((y * w + x) * 4 <= i < (y * w + x) * 4 + 3)%nat
  then match d !! i with
       | Some old =>
           Some (orderedChannel matrix strength old (x mod length matrix)
                   (y mod length matrix))
       | None => None
       end
  else d !! i.
Proof.
  intros Hsq. unfold orderedPixel, orderedChannel, orderedThreshold.
  rewrite (matrixAt_entry matrix x y Hsq). cbn [foldl CHANNELS].
  set (thr := JS.mul (JS.mul (JS.div _ _) _) strength).
  set (p := ((y * w + x) * 4)%nat).
  unfold thresholdChannel, JS.gtb.
  rewrite !load_store_ne by lia. rewrite !store_lookup. unfold load.
  repeat case_decide; try lia; subst;
    try (destruct (d !! _) as [old|]; [|reflexivity];
         destruct (JS.ltb thr (JS.ofZ old)); reflexivity).
Qed.

Lemma orderedDither_data (imageData : ImageData) (matrix : list (list Z))
    (strength : num) :
  squareMatrix matrix ->
  orderedDither imageData matrix strength
  = Ok (mkImageData
          (pixelLoop (width imageData) (orderedPixel matrix strength (width imageData))
             (height imageData) (data imageData))
          (width imageData) (height imageData)).
Proof.
  intros [Hn _]. unfold orderedDither.
  now rewrite (proj2 (Nat.eqb_neq (length matrix) 0)) by lia.
Qed.

Lemma orderedDither_at (imageData out : ImageData) (matrix : list (list Z))
    (strength : num) (x y c : nat) (old : Z) :
  squareMatrix matrix ->
  orderedDither imageData matrix strength = Ok out ->
  (x < width imageData)%nat -> (y < height imageData)%nat -> (c < 3)%nat ->
  data imageData !! ((y * width imageData + x) * 4 + c)%nat = Some old ->
  data out !! ((y * width imageData + x) * 4 + c)%nat
  = Some (orderedChannel matrix strength old (x mod length matrix)
            (y mod length matrix)).
Proof.
  intros Hsq Hout Hx Hy Hc Hold. rewrite orderedDither_data in Hout by exact Hsq.
  injection Hout as <-. cbn [data].
  rewrite pixelLoop_at; try lia.
  - rewrite orderedPixel_lookup, decide_True by (exact Hsq || lia). now rewrite Hold.
  - intros d y' x' i Hi. rewrite orderedPixel_lookup by exact Hsq.
    pose proof (in_pixel i (y' * width imageData + x')).
    now rewrite decide_False by lia.
  - intros d d' y' x' Hagree i Hi. rewrite !orderedPixel_lookup by exact Hsq.
    now rewrite (Hagree i Hi).
Qed.

Lemma ordered_matrices_square (matrix : list (list Z)) :
  In matrix ORDERED_MATRICES -> squareMatrix matrix.
Proof.
  intros [<-|[<-|[<-|[]]]]; (split; [cbn; lia|]);
    repeat (apply Forall_cons; split; [reflexivity|]); apply Forall_nil_2.
Qed.

(** C4, as stated, fails in binary64: at strength [0.6] the threshold of
    pixel [(1, 1)] under the 2x2 matrix, [(1 / 3) * 255 * 0.6], is computed
    as [51] exactly, so a channel of value [51] is not above it and becomes
    [0], while the exact product, taken at the binary64 value of [0.6], is
    below [51] and the claim gives [255]. *)
Lemma ordered_threshold_rounds_up :
  lit 6 10 = Fin (JS.rnd (6 # 10)) /\
  claimedOrderedChannel ORDERED_2X2 (JS.rnd (6 # 10)) 51 1 1 = 255 /\
  orderedDither dim2 ORDERED_2X2 (lit 6 10)
  = Ok (mkImageData [255; 255; 255; 255;  0; 0; 0; 255;  0; 0; 0; 255;  0; 0; 0; 255] 2 2).
Proof. repeat split; vm_compute; reflexivity. Qed.

(** C4, amended.  For the ordered dither with the 2x2, 4x4 and 8x8
    matrices, the output channel [c < 3] of pixel [(x, y)] is [255] when
    the old value is strictly above the threshold
    [(matrix[y mod n][x mod n] / (n * n - 1)) * 255 * strength] computed in
    binary64, the quotient and the two products each rounded in that order,
    and [0] otherwise.  So two pixels, in images of any sizes, with the
    same old value at positions congruent modulo [n] get the same output. *)
Theorem orderedDither_pointwise :
  (length ORDERED_2X2, length ORDERED_4X4, length ORDERED_8X8) = (2, 4, 8)%nat /\
  (forall (imageData : ImageData) (matrix : list (list Z)) (strength : num),
      In matrix ORDERED_MATRICES ->
      exists out,
        orderedDither imageData matrix strength = Ok out /\
        width out = width imageData /\ height out = height imageData /\
        forall (x y c : nat) (old : Z),
          (x < width imageData)%nat -> (y < height imageData)%nat -> (c < 3)%nat ->
          data imageData !! ((y * width imageData + x) * 4 + c)%nat = Some old ->
          data out !! ((y * width imageData + x) * 4 + c)%nat
          = Some (orderedChannel matrix strength old (x mod length matrix)
                    (y mod length matrix))) /\
  (forall (img1 img2 out1 out2 : ImageData) (matrix : list (list Z)) (strength : num)
          (x1 y1 x2 y2 c : nat) (old : Z),
      In matrix ORDERED_MATRICES ->
      orderedDither img1 matrix strength = Ok out1 ->
      orderedDither img2 matrix strength = Ok out2 ->
      (x1 < width img1)%nat -> (y1 < height img1)%nat ->
      (x2 < width img2)%nat -> (y2 < height img2)%nat -> (c < 3)%nat ->
      (x1 mod length matrix = x2 mod length matrix)%nat ->
      (y1 mod length matrix = y2 mod length matrix)%nat ->
      data img1 !! ((y1 * width img1 + x1) * 4 + c)%nat = Some old ->
      data img2 !! ((y2 * width img2 + x2) * 4 + c)%nat = Some old ->
      data out1 !! ((y1 * width img1 + x1) * 4 + c)%nat
      = data out2 !! ((y2 * width img2 + x2) * 4 + c)%nat).
Proof.
  split; [reflexivity|]. split.
  - intros imageData matrix strength Hin.
    pose proof (ordered_matrices_square matrix Hin) as Hsq.
    eexists. split; [apply orderedDither_data, Hsq|].
    split; [reflexivity|]. split; [reflexivity|].
    intros x y c old Hx Hy Hc Hold.
    eapply orderedDither_at; eauto using orderedDither_data.
  - intros img1 img2 out1 out2 matrix strength x1 y1 x2 y2 c old Hin Ho1 Ho2
      Hx1 Hy1 Hx2 Hy2 Hc Hx Hy H1 H2.
    pose proof (ordered_matrices_square matrix Hin) as Hsq.
    rewrite (orderedDither_at img1 out1 matrix strength x1 y1 c old) by assumption.
    rewrite (orderedDither_at img2 out2 matrix strength x2 y2 c old) by assumption.
    now rewrite Hx, Hy.
Qed.

Lemma orderedDither_pointwise_witness :
  In ORDERED_2X2 ORDERED_MATRICES /\
  exists out out5,
    orderedDither dim2 ORDERED_2X2 (lit 6 10) = Ok out /\
    orderedDither dim5 ORDERED_2X2 (lit 6 10) = Ok out5 /\
    data out !! 12%nat = Some 0 /\
    data out !! 4%nat = Some 0 /\
    data out !! 0%nat = Some 255 /\
    data out5 !! 72%nat = data out !! 12%nat.
Proof.
  assert (Hin : In ORDERED_2X2 ORDERED_MATRICES) by (left; reflexivity).
  split; [exact Hin|].
  destruct orderedDither_pointwise as (_ & Hat & Hsame).
  destruct (Hat dim2 ORDERED_2X2 (lit 6 10) Hin) as (out & Hout & _ & _ & Hpix).
  destruct (Hat dim5 ORDERED_2X2 (lit 6 10) Hin) as (out5 & Hout5 & _ & _ & _).
  exists out, out5. split; [exact Hout|]. split; [exact Hout5|].
  split; [|split; [|split]].
  - etransitivity;
      [exact (Hpix 1%nat 1%nat 0%nat 51 ltac:(cbn; lia) ltac:(cbn; lia) ltac:(lia) eq_refl)|].
    vm_compute. reflexivity.
  - etransitivity;
      [exact (Hpix 1%nat 0%nat 0%nat 51 ltac:(cbn; lia) ltac:(cbn; lia) ltac:(lia) eq_refl)|].
    vm_compute. reflexivity.
  - etransitivity;
      [exact (Hpix 0%nat 0%nat 0%nat 51 ltac:(cbn; lia) ltac:(cbn; lia) ltac:(lia) eq_refl)|].
    vm_compute. reflexivity.
  - apply (Hsame dim5 dim2 out5 out ORDERED_2X2 (lit 6 10) 3%nat 3%nat 1%nat 1%nat
             0%nat 51 Hin Hout5 Hout); cbn; try lia; reflexivity.
Defined.

(** ** C7 *)

Lemma pow2_nonneg (x : num) : x <> NaN -> nonneg (pow2 x).
Proof.
  intros Hx. destruct x as [q| | |]; try exact I; [|congruence].
  unfold pow2. cbn [JS.mul]. apply round64_nonneg.
  destruct (Qlt_le_dec q 0) as [H|H].
  - assert (E : (q * q == (- q) * (- q))%Q) by ring. rewrite E.
    apply Qmult_le_0_compat; lra.
  - now apply Qmult_le_0_compat.
Qed.

Lemma add_nonneg (a b : num) : nonneg a -> nonneg b -> nonneg (JS.add a b).
Proof.
  destruct a as [x| | |], b as [y| | |]; cbn; try tauto.
  intros Hx Hy. apply round64_nonneg. lra.
Qed.

Lemma round64_not_NaN (q : Q) : JS.round64 q <> NaN.
Proof.
  unfold JS.round64. destruct (Qle_bool _ _); [discriminate|].
  destruct (Qle_bool _ _); discriminate.
Qed.

Lemma sub_not_NaN (r : Q) (p : Z) : JS.sub (Fin r) (JS.ofZ p) <> NaN.
Proof. unfold JS.sub, JS.ofZ. cbn [JS.neg JS.add]. apply round64_not_NaN. Qed.

Lemma sqrtApprox_nonneg (q : Q) : (0 <= JS.sqrtApprox q)%Q.
Proof.
  unfold JS.sqrtApprox.
  apply Qle_shift_div_l; [apply pow2_pos|]. rewrite Qmult_0_l.
  apply inject_Z_nonneg.
  pose proof (Z.sqrt_nonneg (Qfloor (q * 2 ^ (2 * (64 - JS.ilog2 q / 2))))).
  destruct (Qeq_bool _ _); lia.
Qed.

Lemma sqrt_nonneg (a : num) : nonneg a -> nonneg (JS.sqrt a).
Proof.
  destruct a as [q| | |]; cbn [nonneg JS.sqrt]; try tauto.
  intros Hq. destruct (Qeq_bool q 0); [apply Qle_refl|].
  rewrite (proj2 (Qle_bool_iff 0 q) Hq).
  apply round64_nonneg, sqrtApprox_nonneg.
Qed.

(** A computed distance is a number, and not a negative one. *)
Lemma colorDistance_nonneg (r g b : Q) (p : Z * Z * Z) :
  nonneg (colorDistance (Fin r) (Fin g) (Fin b) p).
Proof.
  destruct p as [[pr pg] pb]. unfold colorDistance.
  apply sqrt_nonneg; repeat apply add_nonneg; apply pow2_nonneg, sub_not_NaN.
Qed.

(** The order of the numbers that are not [NaN]. *)
Lemma ltb_irrefl (a : num) : JS.ltb a a = false.
Proof.
  destruct a as [x| | |]; try reflexivity. cbn. apply Qltb_ge, Qle_refl.
Qed.

Lemma leb_refl (a : num) : leb a a = true.
Proof. unfold leb. now rewrite ltb_irrefl. Qed.

Lemma ltb_leb (a b : num) : JS.ltb a b = true -> leb a b = true.
Proof.
  unfold leb. destruct a as [x| | |], b as [y| | |]; cbn; try congruence.
  intros H. apply Qltb_lt in H. apply negb_true_iff, Qltb_ge. now apply Qlt_le_weak.
Qed.

Lemma ltb_leb_trans (a b c : num) :
  nonneg c -> JS.ltb a b = true -> leb b c = true -> JS.ltb a c = true.
Proof.
  unfold leb. destruct a as [x| | |], b as [y| | |], c as [z| | |];
    cbn; try congruence; try tauto.
  intros _ H1 H2. apply Qltb_lt in H1. apply negb_true_iff, Qltb_ge in H2.
  apply Qltb_lt. lra.
Qed.

Lemma closest_scan (r g b : Q) (palette : list (Z * Z * Z)) (n : nat) :
  (n <= length palette)%nat ->
  firstLeast (Fin r) (Fin g) (Fin b) palette n
    (foldl (closestStep (Fin r) (Fin g) (Fin b) palette) (PInf, 0%nat) (seq 0 n)).
Proof.
  induction n as [|n IH]; intros Hn.
  - left. split; reflexivity.
  - rewrite seq_S, foldl_app. cbn [foldl plus].
    specialize (IH ltac:(lia)).
    set (st := foldl _ _ (seq 0 n)) in *.
    destruct (lookup_lt_is_Some_2 palette n) as [p Hp]; [lia|].
    unfold closestStep at 1. rewrite Hp. right. unfold firstLeast in IH.
    set (dist := colorDistance (Fin r) (Fin g) (Fin b)) in *.
    assert (Hnn : forall q, nonneg (dist q)) by (intros q; apply colorDistance_nonneg).
    destruct IH as [[-> Hst] | [pk (Hk & Hpk & Hm & Hall)]].
    + rewrite Hst. cbn [fst].
      destruct (JS.ltb (dist p) PInf) eqn:E.
      * exists p. cbn [fst snd].
        split; [lia|]. split; [exact Hp|]. split; [reflexivity|].
        intros j pj Hj Hpj. assert (j = 0%nat) by lia. subst j.
        rewrite Hp in Hpj. injection Hpj as <-. split; [apply leb_refl | lia].
      * (* the distance is [+Infinity] itself: the state is the initial one,
           which names entry 0 *)
        exists p. cbn [fst snd].
        split; [lia|]. split; [exact Hp|]. split.
        -- specialize (Hnn p). destruct (dist p) as [x| | |]; cbn in *;
             try reflexivity; try discriminate; tauto.
        -- intros j pj Hj Hpj. assert (j = 0%nat) by lia. subst j.
           rewrite Hp in Hpj. injection Hpj as <-. split; [apply leb_refl | lia].
    + rewrite Hm.
      destruct (JS.ltb (dist p) (dist pk)) eqn:E.
      * exists p. cbn [fst snd].
        split; [lia|]. split; [exact Hp|]. split; [reflexivity|].
        intros j pj Hj Hpj. destruct (decide (j = n)) as [->|Hne].
        -- rewrite Hp in Hpj. injection Hpj as <-. split; [apply leb_refl | lia].
        -- destruct (Hall j pj ltac:(lia) Hpj) as [Hle _].
           assert (Hlt : JS.ltb (dist p) (dist pj) = true)
             by (apply (ltb_leb_trans _ (dist pk)); auto).
           split; [now apply ltb_leb | intros _; exact Hlt].
      * exists pk.
        split; [lia|]. split; [exact Hpk|]. split; [exact Hm|].
        intros j pj Hj Hpj. destruct (decide (j = n)) as [->|Hne].
        -- rewrite Hp in Hpj. injection Hpj as <-.
           split; [unfold leb; now rewrite E | lia].
        -- apply (Hall j pj ltac:(lia) Hpj).
Qed.

Lemma findClosest_first_least (r g b : Q) (palette : list (Z * Z * Z)) :
  (0 < length palette)%nat ->
  exists pk,
    palette !! findClosestAnsiColor (Fin r) (Fin g) (Fin b) palette = Some pk /\
    forall j pj, palette !! j = Some pj ->
      leb (colorDistance (Fin r) (Fin g) (Fin b) pk)
          (colorDistance (Fin r) (Fin g) (Fin b) pj) = true /\
      ((j < findClosestAnsiColor (Fin r) (Fin g) (Fin b) palette)%nat ->
       JS.ltb (colorDistance (Fin r) (Fin g) (Fin b) pk)
              (colorDistance (Fin r) (Fin g) (Fin b) pj) = true).
Proof.
  intros Hlen. unfold findClosestAnsiColor.
  destruct (closest_scan r g b palette (length palette) (le_n _))
    as [[H0 _] | [pk (Hk & Hpk & _ & Hall)]]; [lia|].
  exists pk. split; [exact Hpk|]. intros j pj Hpj.
  apply Hall; [|exact Hpj]. now apply lookup_lt_Some in Hpj.
Qed.

Lemma paletteOf_nonempty (colorPalette : option ColorPalette) :
  (0 < length (paletteOf colorPalette))%nat.
Proof. destruct colorPalette as [[|]|]; vm_compute; lia. Qed.

Lemma sub_fin (r : Q) (p : Z) :
  inByteRange r -> 0 <= p <= 255 ->
  JS.sub (Fin r) (JS.ofZ p) = Fin (JS.rnd (r - inject_Z p)) /\
  (- (255) <= JS.rnd (r - inject_Z p) <= 255)%Q.
Proof.
  intros [Hr0 Hr1] [Hp0 Hp1].
  assert (Hq : (0 <= inject_Z p <= 255)%Q).
  { change 0%Q with (inject_Z 0). change 255%Q with (inject_Z 255).
    rewrite <- !Zle_Qle. lia. }
  unfold JS.sub, JS.ofZ. cbn [JS.neg JS.add].
  destruct (round64_between (r + - inject_Z p) (- 255) 255) as [-> [H1 H2]]; try lia.
  - change (inject_Z (- 255)) with (- (255))%Q. lra.
  - change (inject_Z 255) with 255%Q. lra.
  - change (inject_Z (- 255)) with (- (255))%Q in H1.
    change (inject_Z 255) with 255%Q in H2.
    split; [reflexivity | split; assumption].
Qed.

Lemma square_fin (d : Q) :
  (- (255) <= d <= 255)%Q ->
  pow2 (Fin d) = Fin (JS.rnd (d * d)) /\ (0 <= JS.rnd (d * d) <= 65025)%Q.
Proof.
  intros [H1 H2].
  assert (Hsq : (0 <= d * d <= 65025)%Q).
  { split.
    - destruct (Qlt_le_dec d 0) as [H|H].
      + assert (E : (d * d == (- d) * (- d))%Q) by ring. rewrite E.
        apply Qmult_le_0_compat; lra.
      + now apply Qmult_le_0_compat.
    - assert (H : (0 <= (255 - d) * (255 + d))%Q) by (apply Qmult_le_0_compat; lra).
      assert (E : ((255 - d) * (255 + d) == 65025 - d * d)%Q) by ring.
      rewrite E in H. lra. }
  unfold pow2. cbn [JS.mul].
  destruct (round64_between (d * d) 0 65025) as [-> [H3 H4]]; try lia;
    change (inject_Z 0) with 0%Q; change (inject_Z 65025) with 65025%Q; try apply Hsq.
  split; [reflexivity | split; assumption].
Qed.

Lemma sum_fin (x y : Q) (bx by_ : Z) :
  0 <= bx -> 0 <= by_ -> bx + by_ <= 2 ^ 52 ->
  (0 <= x <= inject_Z bx)%Q -> (0 <= y <= inject_Z by_)%Q ->
  JS.add (Fin x) (Fin y) = Fin (JS.rnd (x + y)) /\
  (0 <= JS.rnd (x + y) <= inject_Z (bx + by_))%Q.
Proof.
  intros Hbx Hby Hmax [Hx0 Hx1] [Hy0 Hy1]. cbn [JS.add].
  destruct (round64_between (x + y) 0 (bx + by_)) as [-> [H1 H2]]; try lia.
  - change (inject_Z 0) with 0%Q. lra.
  - rewrite inject_Z_plus. lra.
  - split; [reflexivity | split; assumption].
Qed.

(** For components in the range of a byte no infinity arises: the distance
    is the rounded square root of the rounded sum of squares. *)
Lemma colorDistance_rounded (r g b : Q) (p : Z * Z * Z) :
  inByteRange r -> inByteRange g -> inByteRange b -> byteEntry p = true ->
  colorDistance (Fin r) (Fin g) (Fin b) p = JS.sqrt (Fin (roundedSq r g b p)).
Proof.
  intros Hr Hg Hb Hp. destruct p as [[pr pg] pb]. unfold byteEntry in Hp.
  repeat (apply andb_prop in Hp; destruct Hp as [Hp ?]).
  unfold colorDistance, roundedSq.
  destruct (sub_fin r pr Hr ltac:(lia)) as [-> Hdr].
  destruct (sub_fin g pg Hg ltac:(lia)) as [-> Hdg].
  destruct (sub_fin b pb Hb ltac:(lia)) as [-> Hdb].
  destruct (square_fin _ Hdr) as [-> Hsr].
  destruct (square_fin _ Hdg) as [-> Hsg].
  destruct (square_fin _ Hdb) as [-> Hsb].
  destruct (sum_fin _ _ 65025 65025 ltac:(lia) ltac:(lia) ltac:(lia) Hsr Hsg) as [-> Hs2].
  destruct (sum_fin _ _ (65025 + 65025) 65025 ltac:(lia) ltac:(lia) ltac:(lia) Hs2 Hsb)
    as [-> _].
  reflexivity.
Qed.

Lemma palette_bytes (colorPalette : option ColorPalette) (p : Z * Z * Z) :
  In p (paletteOf colorPalette) -> byteEntry p = true.
Proof.
  assert (H : forallb byteEntry (paletteOf colorPalette) = true)
    by (destruct colorPalette as [[|]|]; vm_compute; reflexivity).
  rewrite forallb_forall in H. apply H.
Qed.

(** C7, as stated, fails in binary64: for the colour
    [(47.5 + 2^-47, 47.5, 195)] and the 256-colour palette, entry 55,
    [(95, 0, 175)], is strictly nearer than entry 19, [(0, 0, 175)], but
    the two computed distances are the same binary64 number and the search
    keeps the first, so the index selected is 19 and does not minimise the
    Euclidean distance. *)
Lemma nearest_colour_lost_to_rounding :
  findClosestAnsiColor (Fin above47_5) (Fin (95 # 2)) (Fin 195) generateAnsi256Palette
    = 19%nat /\
  generateAnsi256Palette !! 19%nat = Some (0, 0, 175) /\
  generateAnsi256Palette !! 55%nat = Some (95, 0, 175) /\
  (euclidSq above47_5 (95 # 2) 195 (95%Z, 0%Z, 175%Z)
   < euclidSq above47_5 (95 # 2) 195 (0%Z, 0%Z, 175%Z))%Q /\
  colorDistance (Fin above47_5) (Fin (95 # 2)) (Fin 195) (95, 0, 175)
  = colorDistance (Fin above47_5) (Fin (95 # 2)) (Fin 195) (0, 0, 175).
Proof. repeat split; vm_compute; reflexivity. Qed.

(** C7, amended.  In the coloured path, for every RGB input the palette
    index chosen is the first one of least computed distance, where the
    distance is computed in binary64: no entry has a smaller computed
    distance and every entry before it has a strictly greater one; two
    entries whose exact distances differ can have the same computed
    distance.  For components in the range of a byte the computed distance
    is the rounded square root of the sum of the three squared differences,
    each difference, square and sum rounded.  A pixel whose computed mean
    [(r + g + b) / 3] is below [128] gives foreground [0], the chosen index
    as background, and a space when the ramp glyph is a space, the
    dark-shade block otherwise; any other pixel gives the ramp glyph, the
    chosen index as foreground and no background.  Pure red [(255, 0, 0)]
    resolves in the 16-colour palette to entry 9, which is [(255, 0, 0)],
    at distance [0]. *)
Theorem rgbToAnsiPixel_colored :
  (forall (r g b : Q) (colorPalette : option ColorPalette),
      let palette := paletteOf colorPalette in
      let colorIndex := findClosestAnsiColor (Fin r) (Fin g) (Fin b) palette in
      let distance := colorDistance (Fin r) (Fin g) (Fin b) in
      exists pk,
        palette !! colorIndex = Some pk /\
        forall j pj, palette !! j = Some pj ->
          leb (distance pk) (distance pj) = true /\
          ((j < colorIndex)%nat -> JS.ltb (distance pk) (distance pj) = true)) /\
  (forall (r g b : Q) (colorPalette : option ColorPalette) (p : Z * Z * Z),
      inByteRange r -> inByteRange g -> inByteRange b ->
      In p (paletteOf colorPalette) ->
      colorDistance (Fin r) (Fin g) (Fin b) p = JS.sqrt (Fin (roundedSq r g b p))) /\
  (forall (r g b : num) (asciiChars : jsstring) (colorPalette : option ColorPalette)
          (invertBrightness : bool),
      let colorIndex := findClosestAnsiColor r g b (paletteOf colorPalette) in
      let glyph :=
        brightnessToAscii (getPixelBrightness r g b) asciiChars invertBrightness in
      let cell := rgbToAnsiPixel r g b asciiChars true colorPalette invertBrightness in
      (JS.ltb (meanColor r g b) (JS.ofZ 128) = true ->
       cell = mkAnsiPixel
                (Some (if decide (glyph = Some SPACE) then SPACE else DARK_SHADE))
                (Some 0%nat) (Some colorIndex) (Some (r, g, b))) /\
      (JS.ltb (meanColor r g b) (JS.ofZ 128) = false ->
       cell = mkAnsiPixel glyph (Some colorIndex) None (Some (r, g, b)))) /\
  (findClosestAnsiColor (JS.ofZ 255) (JS.ofZ 0) (JS.ofZ 0) ANSI_16_COLORS = 9%nat /\
   ANSI_16_COLORS !! 9%nat = Some (255, 0, 0) /\
   colorDistance (JS.ofZ 255) (JS.ofZ 0) (JS.ofZ 0) (255, 0, 0) = JS.ofZ 0).
Proof.
  split; [|split; [|split]].
  - intros r g b colorPalette palette colorIndex distance.
    apply findClosest_first_least, paletteOf_nonempty.
  - intros r g b colorPalette p Hr Hg Hb Hp.
    apply colorDistance_rounded; try assumption. exact (palette_bytes _ _ Hp).
  - intros r g b asciiChars colorPalette invertBrightness colorIndex glyph cell.
    unfold cell, rgbToAnsiPixel, ansiPixelOf, meanColor. cbn [negb].
    split; intros ->; reflexivity.
  - repeat split; vm_compute; reflexivity.
Qed.

Lemma rgbToAnsiPixel_colored_witness :
  rgbToAnsiPixel (Fin 10) (Fin 32) (Fin 59) (str " .:-=+*#%@") true (Some ansi_16) false
  = mkAnsiPixel (Some SPACE) (Some 0%nat) (Some 0%nat) (Some (Fin 10, Fin 32, Fin 59)) /\
  rgbToAnsiPixel (Fin 255) (Fin 255) (Fin 0) (str " .:-=+*#%@") true (Some ansi_16) false
  = mkAnsiPixel (Some (codeOf "#")) (Some 11%nat) None (Some (Fin 255, Fin 255, Fin 0)) /\
  colorDistance (Fin 10) (Fin 32) (Fin 59) (128, 0, 0)
  = JS.sqrt (Fin (roundedSq 10 32 59 (128%Z, 0%Z, 0%Z))).
Proof.
  destruct rgbToAnsiPixel_colored as (_ & Hdist & Hcell & _).
  split; [|split].
  - destruct (Hcell (Fin 10) (Fin 32) (Fin 59) (str " .:-=+*#%@") (Some ansi_16) false)
      as [Hdark _].
    rewrite Hdark by (vm_compute; reflexivity). vm_compute. reflexivity.
  - destruct (Hcell (Fin 255) (Fin 255) (Fin 0) (str " .:-=+*#%@") (Some ansi_16) false)
      as [_ Hbright].
    rewrite Hbright by (vm_compute; reflexivity). vm_compute. reflexivity.
  - apply (Hdist 10%Q 32%Q 59%Q (Some ansi_16) (128, 0, 0));
      try (split; discriminate).
    cbn. tauto.
Defined.

(** ** C8 *)

(** C8. A black pixel has luminance [0]; at contrast [1] and brightness
    [+10] the adjusted luminance is [10], the quotient [10 / 0] is
    [+Infinity], which is truthy, so it is the brightness factor (not [1]):
    the channels [0 * Infinity] become [NaN] instead of staying [0], and
    the cell has no glyph.  The factor is [1] only when the quotient is
    [NaN] or [0]. *)
Theorem zero_luminance_factor_not_one :
  getPixelBrightness (JS.ofZ 0) (JS.ofZ 0) (JS.ofZ 0) = JS.ofZ 0 /\
  brightnessFactor (adjustBrightness (JS.ofZ 0) (JS.ofZ 1) (JS.ofZ 10)) (JS.ofZ 0) = PInf /\
  rescaleRGB (JS.ofZ 0) (JS.ofZ 0) (JS.ofZ 0) (JS.ofZ 1) (JS.ofZ 10) = (NaN, NaN, NaN) /\
  rescaleRGB (JS.ofZ 1) (JS.ofZ 0) (JS.ofZ 0) (JS.ofZ 1) (JS.ofZ 10)
    = (JS.ofZ 255, NaN, NaN) /\
  convertToAscii blackPixel brighterColoured
    = Ok (Cells [[undefinedCell; undefinedCell]]) /\
  brightnessFactor (adjustBrightness (JS.ofZ 0) (JS.ofZ 1) (JS.ofZ 0)) (JS.ofZ 0) = JS.ofZ 1.
Proof. repeat split; vm_compute; reflexivity. Qed.

(** ** C3 *)













(** ** C9 *)

Lemma foldM_invariant {A B : Type} (f : A -> B -> result A) (I : nat -> A -> Prop)
    (l : list B) :
  (forall n a b a', I n a -> f a b = Ok a' -> I (S n) a') ->
  forall n a a', I n a -> foldM f l a = Ok a' -> I (n + length l)%nat a'.
Proof.
  intros Hstep. induction l as [|b l IH]; intros n a a' Ha Hrun.
  - cbn in Hrun. injection Hrun as <-. now rewrite Nat.add_0_r.
  - cbn [foldM mbind result_bind bind] in Hrun.
    destruct (f a b) as [a1| |] eqn:Hf; try discriminate.
    cbn [length]. rewrite Nat.add_succ_r. apply (IH (S n) a1 a'); [|exact Hrun].
    exact (Hstep n a b a1 Ha Hf).
Qed.

Lemma known_ramps_no_newline (key : string) (ramp : jsstring) :
  ownEntry ASCII_SETS key = Some ramp -> ~ In NEWLINE ramp.
Proof.
  unfold ASCII_SETS. cbn [ownEntry].
  repeat (destruct (String.eqb _ key);
          [ intros [= <-]; vm_compute; intros H;
            repeat (destruct H as [H | H]; [discriminate H|]); exact H | ]).
  discriminate.
Qed.

Lemma count_occ_app_newline (s t : jsstring) :
  count_occ N.eq_dec (s ++ t) NEWLINE
  = (count_occ N.eq_dec s NEWLINE + count_occ N.eq_dec t NEWLINE)%nat.
Proof. apply count_occ_app. Qed.

Lemma appendGlyph_no_newline (s : jsstring) (c : option char) :
  c <> Some NEWLINE ->
  count_occ N.eq_dec (appendGlyph s c) NEWLINE = count_occ N.eq_dec s NEWLINE.
Proof.
  intros Hc. unfold appendGlyph. destruct c as [c|].
  - rewrite count_occ_app_newline. cbn [count_occ].
    destruct (N.eq_dec c NEWLINE) as [->|_]; [congruence | lia].
  - rewrite count_occ_app_newline.
    replace (count_occ N.eq_dec (str "undefined") NEWLINE) with 0%nat by reflexivity.
    lia.
Qed.

Lemma asciiGlyph_no_newline (d : list Z) (key : string) (contrast brightness : num)
    (invertBrightness : bool) (index : nat) (c : option char) :
  asciiGlyph d (lookupSet ASCII_SETS key) contrast brightness invertBrightness index
    = Ok c ->
  c <> Some NEWLINE.
Proof.
  unfold asciiGlyph, brightnessToAscii_dyn, lookupSet.
  destruct (ownEntry ASCII_SETS key) as [ramp|] eqn:Hset.
  - intros [= <-] Hc. apply (known_ramps_no_newline key ramp Hset).
    unfold brightnessToAscii, charAt in Hc.
    destruct (JS.toIndex _) as [n|]; [|discriminate].
    apply list_elem_of_In. eapply list_elem_of_lookup_2. exact Hc.
  - destruct (existsb _ _); [|discriminate]. intros [= <-]. discriminate.
Qed.

Lemma convertToAscii_rowCount (imageData : ImageData) (options : ConversionOptions)
    (out : Output) :
  convertToAscii imageData options = Ok out ->
  requestedRows (width imageData) (height imageData) (opt_width options)
    (opt_maintainAspectRatio options) (opt_charAspectRatio options)
  = Ok (rowCount out).
Proof.
  unfold convertToAscii, requestedRows.
  destruct (allocRows _ _) as [rows| |]; cbn [mbind result_bind bind];
    try discriminate.
  match goal with |- context [if ?c then _ else _] => destruct c end.
  - match goal with |- context [foldM ?f ?l ?a] =>
      destruct (foldM f l a) as [cells| |] eqn:Hrun end; try discriminate.
    cbn [bind]. intros [= <-]. cbn [rowCount]. f_equal.
    apply (foldM_invariant _ (fun n cells => length cells = n) _) with (n := 0%nat)
      in Hrun; [now rewrite length_seq in Hrun | clear Hrun | reflexivity].
    intros n a y a' Ha Hstep.
    match type of Hstep with context [foldM ?f ?l ?a] =>
      destruct (foldM f l a) as [row| |] end; try discriminate.
    cbn in Hstep. injection Hstep as <-. rewrite length_app. cbn. lia.
  - match goal with |- context [foldM ?f ?l ?a] =>
      destruct (foldM f l a) as [text| |] eqn:Hrun end; try discriminate.
    cbn [bind]. intros [= <-]. cbn [rowCount]. f_equal.
    apply (foldM_invariant _ (fun n s => count_occ N.eq_dec s NEWLINE = n) _)
      with (n := 0%nat) in Hrun;
      [now rewrite length_seq in Hrun | clear Hrun | reflexivity].
    intros n a y a' Ha Hstep.
    match type of Hstep with context [foldM ?f ?l ?a] =>
      destruct (foldM f l a) as [line| |] eqn:Hline end; try discriminate.
    cbn in Hstep. injection Hstep as <-.
    rewrite count_occ_app_newline. cbn [count_occ].
    destruct (N.eq_dec NEWLINE NEWLINE) as [_|Hne]; [|congruence].
    apply (foldM_invariant _ (fun _ s => count_occ N.eq_dec s NEWLINE = n) _)
      with (n := 0%nat) in Hline; [lia | clear Hline | exact Ha].
    intros k s x s' Hs Hx.
    destruct (asciiGlyph _ _ _ _ _ _) as [c| |] eqn:Hc; try discriminate.
    cbn in Hx. injection Hx as <-.
    rewrite appendGlyph_no_newline; [exact Hs|].
    eapply asciiGlyph_no_newline. exact Hc.
Qed.

(** C9. Two option values that differ only in the optional [height] give
    the same result on every image: the field is not read.  The number of
    rows of a result is the one requested from the source dimensions and
    [width], [maintainAspectRatio], [charAspectRatio] alone. *)
Theorem convertToAscii_ignores_height (imageData : ImageData)
    (o1 o2 : ConversionOptions) :
  sameExceptHeight o1 o2 ->
  convertToAscii imageData o1 = convertToAscii imageData o2 /\
  forall out, convertToAscii imageData o1 = Ok out ->
    requestedRows (width imageData) (height imageData) (opt_width o1)
      (opt_maintainAspectRatio o1) (opt_charAspectRatio o1)
    = Ok (rowCount out).
Proof.
  intros Hsame. split.
  - destruct o1, o2. unfold sameExceptHeight in Hsame. cbn in Hsame.
    destruct Hsame as (-> & -> & -> & -> & _ & -> & -> & -> & -> & -> & ->).
    reflexivity.
  - intros out. apply convertToAscii_rowCount.
Qed.

Lemma convertToAscii_ignores_height_witness :
  sameExceptHeight (plainOptions None) (plainOptions (Some (JS.ofZ 7))) /\
  convertToAscii gray2 (plainOptions None)
  = convertToAscii gray2 (plainOptions (Some (JS.ofZ 7))).
Proof.
  assert (H : sameExceptHeight (plainOptions None) (plainOptions (Some (JS.ofZ 7))))
    by (unfold sameExceptHeight; cbn; tauto).
  split; [exact H|].
  exact (proj1 (convertToAscii_ignores_height gray2 _ _ H)).
Defined.

(** ** C1 *)

(** C1. The first entry of the Floyd-Steinberg kernel has offset [(0, 0)],
    not [(1, 0)]: 7/16 of the error goes back onto the pixel that was just
    quantised and nothing goes to the right neighbour.  At strength [1] a
    channel of value [100] is written as [0] and then overwritten with
    [0 + 100 * 7/16 = 43.75], stored as [44], so the output is neither [0]
    nor [255]; the second pixel of a row receives nothing from the first.
    The Jarvis-Judice-Ninke kernel, run by the same routine, starts at
    [(1, 0)] and leaves the quantised [0]. *)
Theorem floydSteinberg_error_returns_to_pixel :
  head FLOYD_STEINBERG_KERNEL = Some (0, 0, frac 7 16) /\
  head JARVIS_JUDICE_NINKE_KERNEL = Some (1, 0, frac 7 48) /\
  floydSteinbergDither onePixel (JS.ofZ 1) = mkImageData [44; 44; 44; 255] 1 1 /\
  floydSteinbergSerpentineDither onePixel (JS.ofZ 1) = mkImageData [44; 44; 44; 255] 1 1 /\
  floydSteinbergDither twoPixels (JS.ofZ 1)
    = mkImageData [44; 44; 44; 255; 44; 44; 44; 255] 2 1 /\
  jarvisJudiceNinkeDither onePixel (JS.ofZ 1) = mkImageData [0; 0; 0; 255] 1 1 /\
  jarvisJudiceNinkeDither twoPixels (JS.ofZ 1)
    = mkImageData [0; 0; 0; 255; 0; 0; 0; 255] 2 1.
Proof. repeat split; vm_compute; reflexivity. Qed.

